(** * Merged-cell reconstruction of [good_doc_to_xml.py]

    A shallow embedding of [process_table] (the nested function of
    [docx_to_custom_xml]) and the properties its specification states
    about it: span computation, the processed-cell set, ragged rows,
    nested tables and the shape of the emitted XML. The calls to the
    logger are left out: they change nothing the function builds; the
    lines they append to the log file are no part of what is modelled.

    The function reads its table through python-docx ([row.cells],
    [table.cell]). The lists below stand for what these calls return;
    [received] further down says what python-docx guarantees of them. *)

From stdpp Require Import gmap sets list strings pretty.
From Stdlib Require Import ZArith Lia.

Local Open Scope Z_scope.
Set Warnings "-register-all".

(** ** Outcomes of a Python computation *)

(** The two exceptions [process_table] can meet: [max()] of an empty
    sequence raises [ValueError], an index out of range raises
    [IndexError]. *)
Inductive exn := ValueError | IndexError.

(** A run returns a value, raises, or (for the [while] loop, which the
    source does not bound) has not finished when the fuel is spent. *)
Inductive outcome (A : Type) :=
  | Done (a : A)
  | Raise (e : exn)
  | Timeout.
Arguments Done {A} a.
Arguments Raise {A} e.
Arguments Timeout {A}.

Definition bind {A B} (m : outcome A) (k : A → outcome B) : outcome B :=
  match m with
  | Done a => k a
  | Raise e => Raise e
  | Timeout => Timeout
  end.

Notation "x <- m ;; k" := (bind m (λ x, k))
  (at level 100, m at next level, right associativity).

(** [try: m  except IndexError: h], continuing with [k] on success. *)
Definition try_IndexError {A B} (m : outcome A) (h : outcome B)
    (k : A → outcome B) : outcome B :=
  match m with
  | Done a => k a
  | Raise IndexError => h
  | Raise e => Raise e
  | Timeout => Timeout
  end.

(** ** Python built-ins used by the source *)

(** [l[i]] on a list or tuple: negative indices count from the end, any
    other index outside the sequence raises [IndexError]. *)
Definition py_getitem {A} (l : list A) (i : Z) : outcome A :=
  let n := Z.of_nat (length l) in
  let j := if decide (i < 0) then i + n else i in
  if decide (0 ≤ j < n) then
    match l !! Z.to_nat j with
    | Some x => Done x
    | None => Raise IndexError
    end
  else Raise IndexError.

(** [range(a, b)]. *)
Definition py_range (a b : Z) : list Z := seqZ a (b - a).

(** [max(xs)] of a sequence of integers. *)
Definition py_max (xs : list Z) : outcome Z :=
  match xs with
  | [] => Raise ValueError
  | x :: xs => Done (foldl Z.max x xs)
  end.

(** ["\n".join(ss)]. *)
Definition newline : string := String (Ascii.ascii_of_nat 10) EmptyString.

Fixpoint py_join (sep : string) (ss : list string) : string :=
  match ss with
  | [] => EmptyString
  | [s] => s
  | s :: ss => s +:+ sep +:+ py_join sep ss
  end.

(** ** Input: the table as python-docx exposes it *)

(** A table is the list of its rows [table.rows], a row the list
    [row.cells] python-docx returns for it. A cell is taken by the four
    things the source reads from it:
    - [gridSpan]: the [w:val] of the cell's [w:gridSpan] element as
      [int()] returns it, [None] when the element is absent (a value
      that [int()] rejects has no counterpart here);
    - [vMerge]: [None] when there is no [w:vMerge] element, [Some None]
      when the element has no [w:val], [Some (Some v)] otherwise;
    - [paragraphs]: the text of each paragraph;
    - [tables]: the tables nested in the cell, each a list of rows. *)
Inductive RawCell := mkRawCell {
  gridSpan : option Z;
  vMerge : option (option string);
  paragraphs : list string;
  tables : list (list (list RawCell))
}.

(** [row.cells] *)
Abbreviation Row := (list RawCell).
(** [table.rows] *)
Abbreviation Table := (list (list RawCell)).

(** [table.cell(i, c)] belongs to python-docx, which takes the cell from
    the flat list of the cells of the table, at index
    [c + i * column_count], and raises [IndexError] past its end. For a
    table whose rows all fill the grid that is the cell of row [i] at
    column [c], and it is read so here. The source calls it for one thing
    only: to see whether the cell it gets carries the continuation
    directive (lines 65-67). *)
Definition table_cell (table : Table) (i c : Z) : outcome RawCell :=
  row <- py_getitem table i ;; py_getitem row c.

(** [int(gridSpan_el.get(qn('w:val'))) if gridSpan_el is not None else 1] *)
Definition colspan_of (cell : RawCell) : Z :=
  match gridSpan cell with
  | Some n => n
  | None => 1
  end.

(** [vMerge_el is not None and vMerge_el.get(qn('w:val')) == 'restart']:
    the vertical-merge directive "start". *)
Definition is_restart (cell : RawCell) : bool :=
  match vMerge cell with
  | Some (Some v) => bool_decide (v = "restart"%string)
  | _ => false
  end.

(** [next_vMerge_el is not None and next_vMerge_el.get(qn('w:val')) is None]:
    the vertical-merge directive "continuation". *)
Definition is_continuation (cell : RawCell) : bool :=
  match vMerge cell with
  | Some None => true
  | _ => false
  end.

(** ** Output *)

(** What the loop body holds when it creates [cell_el]: the scan position
    [(r, c)] (as the debug log prints it), both spans, the joined text,
    and the results of the calls on the nested tables. *)
Inductive ResolvedCell := mkResolvedCell {
  rc_row : Z;
  rc_col : Z;
  rc_rowspan : Z;
  rc_colspan : Z;
  rc_text : string;
  rc_tables : list (list (list ResolvedCell))
}.

Abbreviation ResolvedRow := (list ResolvedCell).
Abbreviation ResolvedTable := (list (list ResolvedCell)).

(** An lxml element: tag, attributes in insertion order, text, children. *)
Inductive Element := mkElement {
  tag : string;
  attrib : list (string * string);
  text : option string;
  children : list Element
}.

(** [etree.SubElement(parent, ...)] appends the new element to [parent]. *)
Definition SubElement (parent child : Element) : Element :=
  mkElement (tag parent) (attrib parent) (text parent) (children parent ++ [child]).

(** ** The span computation and the scan *)

Section Scan.
(** [table], [n_cols] and the recursive call are fixed during the scan
    of one table. *)
Variable table : Table.
Variable n_cols : Z.
Variable process_nested : Table → outcome ResolvedTable.

(** The [for i in range(r + 1, len(table.rows))] loop of the rowspan
    computation; [todo] is what is left of the range. *)
Fixpoint rowspan_loop (todo : list Z) (c : Z) (rowspan : Z) : outcome Z :=
  match todo with
  | [] => Done rowspan
  | i :: todo =>
      try_IndexError (table_cell table i c)
        (Done rowspan)
        (λ next_cell,
           if is_continuation next_cell
           then rowspan_loop todo c (rowspan + 1)
           else Done rowspan)
  end.

Definition rowspan_of (cell : RawCell) (r c : Z) : outcome Z :=
  if is_restart cell
  then rowspan_loop (py_range (r + 1) (Z.of_nat (length table))) c 1
  else Done 1.

(** The two [for] loops that mark the span as processed. *)
Definition mark_row (i : Z) (js : list Z) (processed_cells : gset (Z * Z))
    : gset (Z * Z) :=
  foldl (λ s j, s ∪ {[ (i, j) ]}) processed_cells js.

Definition mark_span (r c rowspan colspan : Z)
    (processed_cells : gset (Z * Z)) : gset (Z * Z) :=
  foldl (λ s i, mark_row i (py_range c (c + colspan)) s)
        processed_cells (py_range r (r + rowspan)).

(** [for nested_table in cell.tables: process_table(cell_el, nested_table)] *)
Fixpoint process_tables (ts : list Table) : outcome (list ResolvedTable) :=
  match ts with
  | [] => Done []
  | t :: ts =>
      x <- process_nested t ;;
      xs <- process_tables ts ;;
      Done (x :: xs)
  end.

(** The [while c < n_cols] loop over one row. [row_el] holds the cells
    emitted so far in this row; one unit of fuel is spent per test of
    the loop condition. *)
Fixpoint scan_row (fuel : nat) (r : Z) (row : Row) (c : Z)
    (processed_cells : gset (Z * Z)) (row_el : ResolvedRow)
    : outcome (ResolvedRow * gset (Z * Z)) :=
  match fuel with
  | O => Timeout
  | S fuel =>
      if decide (c < n_cols) then
        if decide ((r, c) ∈ processed_cells) then
          scan_row fuel r row (c + 1) processed_cells row_el
        else
          try_IndexError (py_getitem row c)
            (Done (row_el, processed_cells))
            (λ cell,
               let colspan := colspan_of cell in
               rowspan <- rowspan_of cell r c ;;
               let processed_cells :=
                 mark_span r c rowspan colspan processed_cells in
               let cell_text := py_join newline (paragraphs cell) in
               nested <- process_tables (tables cell) ;;
               scan_row fuel r row (c + colspan) processed_cells
                 (row_el ++ [mkResolvedCell r c rowspan colspan cell_text nested]))
      else Done (row_el, processed_cells)
  end.

(** The [for r, row in enumerate(table.rows)] loop; [rows] is what is
    left of [table.rows], [r] the index of its first row. *)
Fixpoint process_rows (fuel : nat) (r : Z) (rows : list Row)
    (processed_cells : gset (Z * Z)) : outcome ResolvedTable :=
  match rows with
  | [] => Done []
  | row :: rows =>
      scanned <- scan_row fuel r row 0 processed_cells [] ;;
      table_el <- process_rows fuel (r + 1) rows scanned.2 ;;
      Done (scanned.1 :: table_el)
  end.
End Scan.

(** [n_cols = max(len(row.cells) for row in table.rows)] *)
Definition n_cols_of (table : Table) : outcome Z :=
  py_max ((λ row : Row, Z.of_nat (length row)) <$> table).

(** One call of [process_table], up to the element tree: a fresh
    [processed_cells], the column count, then the rows. The fuel bounds
    both the iterations of each [while] loop and the nesting depth. *)
Fixpoint resolve_table (fuel : nat) (table : Table) : outcome ResolvedTable :=
  match fuel with
  | O => Timeout
  | S fuel =>
      n_cols <- n_cols_of table ;;
      process_rows table n_cols (resolve_table fuel) fuel 0 table ∅
  end.

(** ** The element tree *)

(** [cell_el.set('rowspan', str(rowspan))] under [if rowspan > 1], then
    the same for [colspan]. *)
Definition span_attrib (rowspan colspan : Z) : list (string * string) :=
  (if decide (rowspan > 1) then [("rowspan"%string, pretty rowspan)] else []) ++
  (if decide (colspan > 1) then [("colspan"%string, pretty colspan)] else []).

Fixpoint cell_el (cell : ResolvedCell) : Element :=
  mkElement "cell"
    (span_attrib (rc_rowspan cell) (rc_colspan cell))
    (Some (rc_text cell))
    (map (λ t : ResolvedTable,
            mkElement "table" [] None
              (map (λ row : ResolvedRow,
                      mkElement "row" [] None (map cell_el row)) t))
         (rc_tables cell)).

Definition row_el (row : ResolvedRow) : Element :=
  mkElement "row" [] None (map cell_el row).

Definition table_el (t : ResolvedTable) : Element :=
  mkElement "table" [] None (map row_el t).

(** [process_table(parent_el, table)]: the resolved table becomes the last
    child of [parent_el]. *)
Definition process_table (fuel : nat) (parent_el : Element) (table : Table)
    : outcome Element :=
  t <- resolve_table fuel table ;;
  Done (SubElement parent_el (table_el t)).

(** ** Notions of the specification *)

(** The rectangle [[r, r+rowspan) × [c, c+colspan)] an emitted cell claims. *)
Definition covers (e : ResolvedCell) (i j : Z) : Prop :=
  rc_row e ≤ i < rc_row e + rc_rowspan e ∧
  rc_col e ≤ j < rc_col e + rc_colspan e.

(** The row's cell at column [c] carries the "continuation" directive. *)
Definition has_continuation (row : Row) (c : Z) : bool :=
  match py_getitem row c with
  | Done x => is_continuation x
  | _ => false
  end.

(** The number of contiguous rows, from the first of [below] on, whose
    cell at column [c] is a continuation: the count stops at the first row
    lacking the marker or when the rows run out. *)
Fixpoint continuation_run (below : list Row) (c : Z) : Z :=
  match below with
  | [] => 0
  | row :: below =>
      if has_continuation row c then 1 + continuation_run below c else 0
  end.

(** The cell of the grid at [(i, j)] is a continuation. *)
Definition continuation_at (table : Table) (i j : Z) : Prop :=
  ∃ row, table !! Z.to_nat i = Some row ∧ has_continuation row j = true.

(** An emitted cell with [colspan = n] has no continuation cell among the
    [n - 1] coordinates to the right of its own in its row. *)
Definition no_continuation_inside (table : Table) (e : ResolvedCell) : Prop :=
  ∀ j, rc_col e < j < rc_col e + rc_colspan e → ¬ continuation_at table (rc_row e) j.

(** The emitted cell [e] is what the loop body builds at row [r] from the
    cell of [row] at column [rc_col e]. *)
Definition emitted_from (table : Table)
    (process_nested : Table → outcome ResolvedTable)
    (r : Z) (row : Row) (e : ResolvedCell) : Prop :=
  rc_row e = r ∧
  ∃ cell, py_getitem row (rc_col e) = Done cell ∧
    rc_colspan e = colspan_of cell ∧
    rowspan_of table cell r (rc_col e) = Done (rc_rowspan e) ∧
    rc_text e = py_join newline (paragraphs cell) ∧
    process_tables process_nested (tables cell) = Done (rc_tables e).

(** *** The runs of the two loops, as relations

    [scan_trace r row c P new P'] : the [while] loop over [row], entered
    at column [c] with processed set [P], emits the cells [new] and leaves
    the set [P']. *)
Section Traces.
Variable table : Table.
Variable n_cols : Z.
Variable process_nested : Table → outcome ResolvedTable.

Inductive scan_trace (r : Z) (row : Row)
    : Z → gset (Z * Z) → ResolvedRow → gset (Z * Z) → Prop :=
  | scan_exit c P :
      ¬ c < n_cols →
      scan_trace r row c P [] P
  | scan_skip c P new P' :
      c < n_cols → (r, c) ∈ P →
      scan_trace r row (c + 1) P new P' →
      scan_trace r row c P new P'
  | scan_break c P :
      c < n_cols → (r, c) ∉ P →
      py_getitem row c = Raise IndexError →
      scan_trace r row c P [] P
  | scan_emit c P cell rowspan nested new P' :
      c < n_cols → (r, c) ∉ P →
      py_getitem row c = Done cell →
      rowspan_of table cell r c = Done rowspan →
      process_tables process_nested (tables cell) = Done nested →
      scan_trace r row (c + colspan_of cell)
        (mark_span r c rowspan (colspan_of cell) P) new P' →
      scan_trace r row c P
        (mkResolvedCell r c rowspan (colspan_of cell)
           (py_join newline (paragraphs cell)) nested :: new) P'.

Inductive rows_trace
    : Z → list Row → gset (Z * Z) → ResolvedTable → gset (Z * Z) → Prop :=
  | rows_done r P :
      rows_trace r [] P [] P
  | rows_next r row rows P cells P' out P'' :
      scan_trace r row 0 P cells P' →
      rows_trace (r + 1) rows P' out P'' →
      rows_trace r (row :: rows) P (cells :: out) P''.
End Traces.

(** No coordinate is claimed by two emitted cells; the cells are told
    apart by their positions in emission order. *)
Definition disjoint_spans (E : list ResolvedCell) : Prop :=
  ∀ k1 k2 e1 e2 i j,
    E !! k1 = Some e1 → E !! k2 = Some e2 →
    covers e1 i j → covers e2 i j → k1 = k2.

(** The tiling property as the specification states it: every coordinate
    of the [rowCount × columnCount] grid is claimed by exactly one emitted
    cell or lies beyond the end of its (ragged) row, and no two emitted
    cells overlap. *)
Definition tiles (table : Table) (out : ResolvedTable) : Prop :=
  (∀ n_cols r c row,
     n_cols_of table = Done n_cols →
     0 ≤ r → table !! Z.to_nat r = Some row → 0 ≤ c < n_cols →
     Z.of_nat (length row) ≤ c ∨
     ∃ k e, concat out !! k = Some e ∧ covers e r c ∧
            ∀ k' e', concat out !! k' = Some e' → covers e' r c → k' = k) ∧
  disjoint_spans (concat out).

(** What holds between two rows of the scan of [table], when the rows
    before [r] are done, [P] is the processed set and [E] the cells
    emitted so far. *)
Record grid_inv (table : Table) (r : Z) (P : gset (Z * Z))
    (E : list ResolvedCell) : Prop := {
  inv_processed :
    ∀ i j, (i, j) ∈ P ↔ ∃ e, e ∈ E ∧ covers e i j;
  inv_cells :
    ∀ e, e ∈ E →
      0 ≤ rc_row e < r ∧ 1 ≤ rc_rowspan e ∧
      ∀ i, rc_row e < i < rc_row e + rc_rowspan e →
           continuation_at table i (rc_col e);
  inv_covered :
    ∀ i j row, 0 ≤ i < r → table !! Z.to_nat i = Some row →
               0 ≤ j < Z.of_nat (length row) → (i, j) ∈ P;
  inv_disjoint :
    Forall (no_continuation_inside table) E → disjoint_spans E
}.

(** ** Example tables *)

Definition plain_cell (s : string) : RawCell :=
  mkRawCell None None [s] [].
Definition span_cell (n : Z) (s : string) : RawCell :=
  mkRawCell (Some n) None [s] [].
Definition restart_cell (s : string) : RawCell :=
  mkRawCell None (Some (Some "restart"%string)) [s] [].
Definition continuation_cell : RawCell :=
  mkRawCell None (Some None) [] [].

(** Row 0 starts a vertical merge at column 1; in row 1 the cell at
    column 0 spans two columns and so reaches into that merge. *)
Definition overlap_table : Table :=
  [ [plain_cell "A"; restart_cell "B"];
    [span_cell 2 "C"; continuation_cell] ].

(** A 2 × 2 merged block followed by a third column. *)
Definition block_table : Table :=
  [ [mkRawCell (Some 2) (Some (Some "restart"%string)) ["M"%string] [];
     plain_cell "x"; plain_cell "a"];
    [continuation_cell; plain_cell "y"; plain_cell "b"] ].

(** One column, a vertical merge over all three rows. *)
Definition column_table : Table :=
  [ [restart_cell "top"]; [continuation_cell]; [continuation_cell] ].

(** Two rows, two columns; the cell at row 0, column 0 spans both. *)
Definition wide_table : Table :=
  [ [span_cell 2 "A"]; [plain_cell "b"; plain_cell "c"] ].

(** A continuation cell with no start above it. *)
Definition stray_table : Table :=
  [ [mkRawCell (Some 2) (Some None) ["k"%string] []; plain_cell "z";
     plain_cell "w"] ].

(** The [document] root the tables are attached to. *)
Definition document_root : Element := mkElement "document" [] None [].

(** ** Span counts, emptiness and fuel, through the nested tables *)

(** Every span count of the cell and of the tables nested in it, at any
    depth, is at least 1. *)
Fixpoint cell_spans_ok (x : RawCell) : bool :=
  bool_decide (1 ≤ colspan_of x) &&
  forallb (forallb (forallb cell_spans_ok)) (tables x).

Definition spans_ok (table : Table) : bool :=
  forallb (forallb cell_spans_ok) table.

(** No table nested in the cell, at any depth, is without rows. *)
Fixpoint cell_has_rows (x : RawCell) : bool :=
  forallb (λ t : Table,
             negb (bool_decide (t = [])) && forallb (forallb cell_has_rows) t)
          (tables x).

Definition has_rows (table : Table) : bool :=
  negb (bool_decide (table = [])) && forallb (forallb cell_has_rows) table.

(** Fuel that is enough for a table: one unit for the call, and below it
    enough for the longest row scan ([n_cols] iterations and the final
    test) and for every nested table. *)
Fixpoint cell_fuel (x : RawCell) : nat :=
  max_list
    (map (λ t : Table,
            S (max (S (max_list (map length t)))
                   (max_list (map (λ row : Row, max_list (map cell_fuel row)) t))))
         (tables x)).

Definition table_fuel (table : Table) : nat :=
  S (max (S (max_list (map length table)))
         (max_list (map (λ row : Row, max_list (map cell_fuel row)) table))).

(** A cell whose span count is 0. *)
Definition zero_span_table : Table := [ [span_cell 0 "A"] ].

(** Three columns; the second row has a single cell. *)
Definition ragged_table : Table :=
  [ [plain_cell "a"; plain_cell "b"; plain_cell "c"];
    [plain_cell "d"];
    [plain_cell "e"; plain_cell "f"; plain_cell "g"] ].

(** ** Tables without their nested tables *)

(** The cell with its nested tables taken out, and the table made of
    such cells. *)
Definition strip_cell (x : RawCell) : RawCell :=
  mkRawCell (gridSpan x) (vMerge x) (paragraphs x) [].

Definition strip_table (table : Table) : Table :=
  map (map strip_cell) table.

(** An emitted cell without the results of its nested tables. *)
Definition forget_nested (e : ResolvedCell) : ResolvedCell :=
  mkResolvedCell (rc_row e) (rc_col e) (rc_rowspan e) (rc_colspan e)
    (rc_text e) [].

(** A table nested in a cell that spans two columns, next to a vertical
    merge over both rows. *)
Definition nesting_table : Table :=
  [ [restart_cell "v"; mkRawCell (Some 2) None ["outer"%string] [wide_table]];
    [continuation_cell; plain_cell "p"; plain_cell "q"] ].

(** What [nesting_table] resolves to. *)
Definition nesting_resolved : ResolvedTable :=
  [ [mkResolvedCell 0 0 2 1 "v" [];
     mkResolvedCell 0 1 1 2 "outer"
       [ [ [mkResolvedCell 0 0 1 2 "A" []];
           [mkResolvedCell 1 0 1 1 "b" []; mkResolvedCell 1 1 1 1 "c" []] ] ]];
    [mkResolvedCell 1 1 1 1 "p" []; mkResolvedCell 1 2 1 1 "q" []] ].

(** ** Tables as python-docx hands them over

    [row.cells] and [table.cell] resolve the merges before
    [process_table] sees a cell. For a [w:tc] element that continues a
    vertical merge they return the cell the merge starts from, not the
    element itself; and they return a cell once for each grid column it
    spans, so that an element spanning no column is not returned at all.
    Hence no cell that reaches [process_table] carries the continuation
    directive and none has a span count below 1, in the nested tables as
    in the table itself. *)
Fixpoint cell_received (x : RawCell) : bool :=
  negb (is_continuation x) && bool_decide (1 ≤ colspan_of x) &&
  forallb (forallb (forallb cell_received)) (tables x).

Definition received (table : Table) : bool :=
  forallb (forallb cell_received) table.

(** The merged block of [block_table] as it is handed over: the cell
    that starts the merge stands at each of its four coordinates. *)
Definition received_block_table : Table :=
  [ [mkRawCell (Some 2) (Some (Some "restart"%string)) ["M"%string] [];
     mkRawCell (Some 2) (Some (Some "restart"%string)) ["M"%string] [];
     plain_cell "a"];
    [mkRawCell (Some 2) (Some (Some "restart"%string)) ["M"%string] [];
     mkRawCell (Some 2) (Some (Some "restart"%string)) ["M"%string] [];
     plain_cell "b"] ].

(** The vertical merge of [column_table], a start and two continuations,
    as it is handed over: the start cell in each of the three rows. *)
Definition received_column_table : Table :=
  [ [restart_cell "top"]; [restart_cell "top"]; [restart_cell "top"] ].

(** [wide_table] as it is handed over: the cell that spans two columns
    stands at both. *)
Definition received_wide_table : Table :=
  [ [span_cell 2 "A"; span_cell 2 "A"]; [plain_cell "b"; plain_cell "c"] ].

(** One row, one cell over two columns, with two paragraphs and a nested
    table. *)
Definition two_paragraph_table : Table :=
  [ [mkRawCell (Some 2) None ["first"%string; "second"%string]
       [received_wide_table];
     mkRawCell (Some 2) None ["first"%string; "second"%string]
       [received_wide_table]] ].


(** * The document around the tables *)

(** ** Python strings

    A string is taken as a sequence of code points below 256, one
    [ascii] each. *)

(** [str.isspace] on one character: the code points below 256 that Python
    counts as white space. *)
Definition py_isspace (a : Ascii.ascii) : bool :=
  let n := Ascii.nat_of_ascii a in
  ((9 <=? n) && (n <=? 13) || (28 <=? n) && (n <=? 32) ||
   (n =? 133) || (n =? 160))%nat.

Fixpoint py_lstrip (s : string) : string :=
  match s with
  | EmptyString => EmptyString
  | String a s' => if py_isspace a then py_lstrip s' else s
  end.

Fixpoint py_rstrip (s : string) : string :=
  match s with
  | EmptyString => EmptyString
  | String a s' =>
      match py_rstrip s' with
      | EmptyString => if py_isspace a then EmptyString else String a EmptyString
      | t => String a t
      end
  end.

(** [s.strip()] *)
Definition py_strip (s : string) : string := py_rstrip (py_lstrip s).

(** The truth value of a string: it is not empty. *)
Definition py_truthy (s : string) : bool :=
  match s with
  | EmptyString => false
  | String _ _ => true
  end.

(** [s.lower()], character by character: the upper-case letters below 256
    are [A]-[Z] and the code points 192-222 except 215. *)
Definition py_lower_char (a : Ascii.ascii) : Ascii.ascii :=
  let n := Ascii.nat_of_ascii a in
  if ((65 <=? n) && (n <=? 90) ||
      (192 <=? n) && (n <=? 222) && negb (n =? 215))%nat
  then Ascii.ascii_of_nat (n + 32)
  else a.

Fixpoint py_lower (s : string) : string :=
  match s with
  | EmptyString => EmptyString
  | String a s' => String (py_lower_char a) (py_lower s')
  end.

(** [s.startswith(p)] and [s.endswith(p)] *)
Definition py_startswith (s p : string) : bool := String.prefix p s.

Fixpoint py_endswith (s p : string) : bool :=
  String.eqb s p ||
  match s with
  | EmptyString => false
  | String _ s' => py_endswith s' p
  end.

(** [s.replace(old, new)] for a non-empty [old]: occurrences are taken
    from the left and do not overlap; [skip] counts the characters of the
    occurrence just replaced that are still to be passed over. *)
Fixpoint py_replace_from (old new : string) (skip : nat) (s : string) : string :=
  match s with
  | EmptyString => EmptyString
  | String a s' =>
      match skip with
      | S k => py_replace_from old new k s'
      | O =>
          if String.prefix old s
          then new +:+ py_replace_from old new (String.length old - 1) s'
          else String a (py_replace_from old new 0 s')
      end
  end.

Definition py_replace (s old new : string) : string :=
  py_replace_from old new 0 s.

(** ** The document as python-docx exposes it *)

(** A run: its text and its [bold] property ([True], [False] or [None]). *)
Record Run := mkRun {
  run_text : string;
  run_bold : option bool
}.

(** A paragraph: the body element it wraps (elements are told apart by a
    number), the name of its style, its text and its runs. *)
Record Paragraph := mkParagraph {
  p_element : nat;
  style_name : string;
  para_text : string;
  para_runs : list Run
}.

(** A table of the document: the body element it wraps and its rows. *)
Record DocTable := mkDocTable {
  t_element : nat;
  t_rows : Table
}.

(** A child of [doc.element.body]: the element and its tag. *)
Record Block := mkBlock {
  b_element : nat;
  b_tag : string
}.

Record Document := mkDocument {
  body : list Block;
  doc_paragraphs : list Paragraph;
  doc_tables : list DocTable
}.

(** [next((p for p in doc.paragraphs if p._element == block), None)] *)
Definition find_paragraph (doc : Document) (block : Block) : option Paragraph :=
  find (λ p, Nat.eqb (p_element p) (b_element block)) (doc_paragraphs doc).

(** [next((t for t in doc.tables if t._element == block), None)] *)
Definition find_table (doc : Document) (block : Block) : option DocTable :=
  find (λ t, Nat.eqb (t_element t) (b_element block)) (doc_tables doc).

(** The value of [is_bold] for a paragraph: it has text that is not
    blank, at least one run whose text is not blank, and [bold] is true
    of every such run. *)
Definition is_bold (para : Paragraph) : bool :=
  if py_truthy (py_strip (para_text para)) then
    let non_empty_runs :=
      filter (λ run, py_truthy (py_strip (run_text run)) = true)
             (para_runs para) in
    match non_empty_runs with
    | [] => false
    | _ => forallb (λ run, match run_bold run with
                           | Some true => true
                           | _ => false
                           end) non_empty_runs
    end
  else false.

(** The element a paragraph block adds to the root. *)
Definition paragraph_el (para : Paragraph) : Element :=
  let style := py_lower (style_name para) in
  if py_startswith style "heading" then
    mkElement "heading" [("level"%string, py_replace style "heading " "")]
      (Some (para_text para)) []
  else if is_bold para then
    mkElement "bold" [] (Some (para_text para)) []
  else
    mkElement "paragraph" [] (Some (para_text para)) [].

(** The loop [for block in doc.element.body], with the root element
    passed from block to block; [blocks] is what is left of the body. *)
Fixpoint process_blocks (fuel : nat) (doc : Document) (blocks : list Block)
    (root : Element) : outcome Element :=
  match blocks with
  | [] => Done root
  | block :: blocks =>
      if py_endswith (b_tag block) "p" then
        match find_paragraph doc block with
        | None => process_blocks fuel doc blocks root
        | Some para =>
            process_blocks fuel doc blocks (SubElement root (paragraph_el para))
        end
      else if py_endswith (b_tag block) "tbl" then
        match find_table doc block with
        | None => process_blocks fuel doc blocks root
        | Some table =>
            root <- process_table fuel root (t_rows table) ;;
            process_blocks fuel doc blocks root
        end
      else process_blocks fuel doc blocks root
  end.

(** ** Files

    What the two functions see of the file system: which paths open as a
    document, which paths can be written, and the XML files written so
    far by [tree.write], each with the element tree written to it. The
    log file [doc_xml_colspan.log], to which the logger appends at each
    of its calls, and standard output are left out. *)
Record Files := mkFiles {
  open_docx : string → option Document;
  can_write : string → bool
}.

(** [docx_to_custom_xml(docx_path, xml_output_path)]: a document that
    does not open is logged and left; the tree is built from
    [<document>]; a write that fails is logged. An exception of
    [process_table] is not caught. *)
Definition docx_to_custom_xml (fuel : nat) (fs : Files)
    (docx_path xml_output_path : string) (written : gmap string Element)
    : outcome (gmap string Element) :=
  match open_docx fs docx_path with
  | None => Done written
  | Some doc =>
      root <- process_blocks fuel doc (body doc) document_root ;;
      if can_write fs xml_output_path
      then Done (<[xml_output_path := root]> written)
      else Done written
  end.

(** [os.path.join(a, b)] for POSIX paths. *)
Definition path_join (a b : string) : string :=
  if py_startswith b "/" then b
  else if String.eqb a "" || py_endswith a "/" then a +:+ b
  else a +:+ "/" +:+ b.

(** [s.rfind(ch)] for a one-character [ch]: the index of its last
    occurrence, -1 when there is none. [i] is the index of the first
    character of [s], [last] the result so far. *)
Fixpoint rfind_from (ch : Ascii.ascii) (s : string) (i last : Z) : Z :=
  match s with
  | EmptyString => last
  | String a s' =>
      rfind_from ch s' (i + 1) (if Ascii.eqb a ch then i else last)
  end.

Definition py_rfind (s : string) (ch : Ascii.ascii) : Z := rfind_from ch s 0 (-1).

(** [s[i:j]] for [0 <= i <= j]. *)
Definition py_slice (s : string) (i j : Z) : string :=
  String.substring (Z.to_nat i) (Z.to_nat (j - i)) s.

(** [os.path.splitext(p)[0]] for POSIX paths: the extension starts at the
    last dot (code point 46), if that dot comes after the last slash
    (code point 47) and after a character of the file name that is not a
    dot. *)
Definition splitext_root (p : string) : string :=
  let sepIndex := py_rfind p (Ascii.ascii_of_nat 47) in
  let dotIndex := py_rfind p (Ascii.ascii_of_nat 46) in
  if decide (dotIndex > sepIndex) then
    if existsb (λ k, negb (String.eqb (py_slice p k (k + 1)) "."))
               (py_range (sepIndex + 1) dotIndex)
    then py_slice p 0 dotIndex
    else p
  else p.

(** [process_all_docx_in_folder(input_folder, output_folder)], from the
    point where the output folder exists, given the names [os.listdir]
    returns in the order it returns them. The result holds the files
    written and how the loop ended. *)
Fixpoint process_all_docx (fuel : nat) (fs : Files)
    (input_folder output_folder : string) (filenames : list string)
    (written : gmap string Element) : gmap string Element * outcome unit :=
  match filenames with
  | [] => (written, Done tt)
  | filename :: filenames =>
      if py_endswith filename ".docx" then
        let docx_path := path_join input_folder filename in
        let xml_filename := splitext_root filename +:+ ".xml" in
        let xml_output_path := path_join output_folder xml_filename in
        match docx_to_custom_xml fuel fs docx_path xml_output_path written with
        | Done written =>
            process_all_docx fuel fs input_folder output_folder filenames written
        | Raise e => (written, Raise e)
        | Timeout => (written, Timeout)
        end
      else process_all_docx fuel fs input_folder output_folder filenames written
  end.

(** ** Example documents *)

Definition title_paragraph : Paragraph :=
  mkParagraph 1 "Heading 2" "Title" [mkRun "Title" (Some true)].
Definition bold_paragraph : Paragraph :=
  mkParagraph 2 "Normal" " Bold one " [mkRun " " None; mkRun "Bold one" (Some true)].
Definition plain_paragraph : Paragraph :=
  mkParagraph 3 "Normal" "plain" [mkRun "pl" (Some true); mkRun "ain" None].

(** Three paragraphs and a table, a section-properties element between
    them, and a paragraph element that [doc.paragraphs] does not know. *)
Definition sample_document : Document :=
  mkDocument
    [mkBlock 1 "{w}p"; mkBlock 9 "{w}sectPr"; mkBlock 2 "{w}p";
     mkBlock 5 "{w}tbl"; mkBlock 3 "{w}p"; mkBlock 77 "{w}p"]
    [title_paragraph; bold_paragraph; plain_paragraph]
    [mkDocTable 5 wide_table].

(** A paragraph followed by a table without rows and another paragraph. *)
Definition broken_document : Document :=
  mkDocument
    [mkBlock 1 "{w}p"; mkBlock 5 "{w}tbl"; mkBlock 3 "{w}p"]
    [title_paragraph; plain_paragraph]
    [mkDocTable 5 []].

(** A folder with two documents, of which the first to be listed has the
    table without rows, and a file that does not open. *)
Definition sample_files : Files :=
  mkFiles
    (λ path, if String.eqb path "/in/a.docx" then Some broken_document
             else if String.eqb path "/in/b.docx" then Some sample_document
             else None)
    (λ _, true).

(** Every character of the string satisfies [f]. *)
Fixpoint string_forallb (f : Ascii.ascii → bool) (s : string) : bool :=
  match s with
  | EmptyString => true
  | String a s' => f a && string_forallb f s'
  end.

(** The string is made of dots only; the string holds no slash. *)
Definition only_dots (s : string) : bool :=
  string_forallb (λ a, Ascii.eqb a (Ascii.ascii_of_nat 46)) s.

Definition no_slash (s : string) : bool :=
  string_forallb (λ a, negb (Ascii.eqb a (Ascii.ascii_of_nat 47))) s.

(** [old] occurs somewhere in [s]. *)
Fixpoint occurs (old s : string) : bool :=
  String.prefix old s ||
  match s with
  | EmptyString => false
  | String _ s' => occurs old s'
  end.

(** The shape of an element of the tree of a table: a [table] holds
    [row]s, a [row] holds [cell]s, a [cell] holds [table]s; only a [cell]
    has text and attributes, and its attributes are named [rowspan] or
    [colspan]. *)
Definition child_tag (parent : string) : string :=
  if String.eqb parent "table" then "row"
  else if String.eqb parent "row" then "cell"
  else "table".

Fixpoint shaped (expect : string) (el : Element) : bool :=
  String.eqb (tag el) expect &&
  (if String.eqb expect "cell"
   then forallb (λ kv : string * string,
                   String.eqb kv.1 "rowspan" || String.eqb kv.1 "colspan")
                (attrib el) &&
        bool_decide (is_Some (text el))
   else bool_decide (attrib el = []) && bool_decide (text el = None)) &&
  forallb (shaped (child_tag expect)) (children el).

(** The number of cells in a resolved cell, its nested tables included. *)
Fixpoint rc_size (e : ResolvedCell) : nat :=
  S (sum_list (map (λ t : ResolvedTable,
                      sum_list (map (λ row : ResolvedRow,
                                       sum_list (map rc_size row)) t))
                   (rc_tables e))).

(** * From the XML tree to Markdown ([xml_to_propermd.py]) *)

(** An element as [xml.etree.ElementTree] parses it: besides tag,
    attributes, text and children it has a tail, the text between its end
    and the next element. *)
Inductive XElement := mkXElement {
  x_tag : string;
  x_attrib : list (string * string);
  x_text : option string;
  x_tail : option string;
  x_children : list XElement
}.

(** [element.get(key)] *)
Definition x_get (el : XElement) (key : string) : option string :=
  snd <$> find (λ kv : string * string, String.eqb kv.1 key) (x_attrib el).

(** [get_element_text(element)]: the text of the element, of its
    descendants and of the tails of its descendants, stripped at every
    level. *)
Fixpoint get_element_text (element : XElement) : string :=
  py_strip
    ((fix children_text (text : string) (rest : list XElement) : string :=
        match rest with
        | [] => text
        | child :: rest =>
            children_text
              ((text +:+ get_element_text child) +:+ default "" (x_tail child))
              rest
        end) (default "" (x_text element)) (x_children element)).

(** The double quote. *)
Definition dquote : string := String (Ascii.ascii_of_nat 34) EmptyString.

(** [sep.join(filter(None, parts))] *)
Definition join_nonempty (sep : string) (parts : list string) : string :=
  py_join sep (filter (λ s, py_truthy s = true) parts).

(** [convert_table_to_html(table_element)], with the loop of
    [process_cell_content_for_html] over the children of a cell inside:
    the rows are the [row] children of the table, the cells the [cell]
    children of a row; the cells of the first row are [th], the others
    [td]. *)
Fixpoint convert_table_to_html (table_element : XElement) : string :=
  let cell_parts :=
    fix cell_parts (rest : list XElement) : list string :=
      match rest with
      | [] => []
      | child :: rest =>
          (if String.eqb (x_tag child) "table"
           then convert_table_to_html child
           else get_element_text child) ::
          (if py_truthy (default "" (x_tail child)) &&
              py_truthy (py_strip (default "" (x_tail child)))
           then [py_strip (default "" (x_tail child))] else []) ++
          cell_parts rest
      end in
  let cell_content (cell : XElement) : string :=
    join_nonempty "<br>"
      ((if py_truthy (default "" (x_text cell)) &&
           py_truthy (py_strip (default "" (x_text cell)))
        then [py_strip (default "" (x_text cell))] else []) ++
       cell_parts (x_children cell)) in
  let cells_html (cell_tag : string) :=
    fix cells_html (rest : list XElement) : string :=
      match rest with
      | [] => ""
      | cell :: rest =>
          (if String.eqb (x_tag cell) "cell" then
             let colspan := x_get cell "colspan" in
             let rowspan := x_get cell "rowspan" in
             let attrs :=
               (if py_truthy (default "" colspan) &&
                   negb (String.eqb (default "" colspan) "1")
                then " colspan=" +:+ dquote +:+ default "" colspan +:+ dquote
                else "") +:+
               (if py_truthy (default "" rowspan) &&
                   negb (String.eqb (default "" rowspan) "1")
                then " rowspan=" +:+ dquote +:+ default "" rowspan +:+ dquote
                else "") in
             "    <" +:+ cell_tag +:+ attrs +:+ ">" +:+ cell_content cell +:+
             "</" +:+ cell_tag +:+ ">" +:+ newline
           else "") +:+ cells_html rest
      end in
  "<table>" +:+ newline +:+
  (fix rows_html (is_header : bool) (rest : list XElement) : string :=
     match rest with
     | [] => ""
     | row :: rest =>
         if String.eqb (x_tag row) "row" then
           ("  <tr>" +:+ newline) +:+
           cells_html (if is_header then "th" else "td") (x_children row) +:+
           ("  </tr>" +:+ newline) +:+ rows_html false rest
         else rows_html is_header rest
     end) true (x_children table_element) +:+
  "</table>".

(** ** Sections

    The objects of class [Section] live in a store, a list in which a
    section is known by its position; the stack and the [children] lists
    hold positions, so that a section changed through the stack is
    changed for its parent too. *)
Record MdSection := mkSection {
  heading : option string;
  level : Z;
  content : list string;
  sec_children : list nat
}.

(** [parent.add_child(child)] and [section.add_content(item)] *)
Definition add_child (parent child : nat) (store : list MdSection)
    : list MdSection :=
  alter (λ s, mkSection (heading s) (level s) (content s)
                (sec_children s ++ [child])) parent store.

Definition add_content (section : nat) (item : string) (store : list MdSection)
    : list MdSection :=
  alter (λ s, mkSection (heading s) (level s) (content s ++ [item])
                (sec_children s)) section store.

(** The state of the loop of [xml_to_md] over the children of the root
    element. The top of [section_stack] is its first element. *)
Record MdState := mkState {
  store : list MdSection;
  section_stack : list nat;
  first_heading_encountered : bool
}.

(** [root_section = Section(None, 0)], [section_stack = [root_section]] *)
Definition initial_state : MdState :=
  mkState [mkSection None 0 [] []] [0%nat] false.

(** [while len(section_stack) > 1 and section_stack[-1].level >= level:
    section_stack.pop()] *)
Fixpoint pop_sections (store : list MdSection) (lvl : Z) (stack : list nat)
    : list nat :=
  match stack with
  | top :: (_ :: _) as rest =>
      match store !! top with
      | Some s => if decide (lvl ≤ level s) then pop_sections store lvl rest
                  else stack
      | None => stack
      end
  | _ => stack
  end.

Section XmlToMd.
(** [classify_heading] is taken as it comes: what follows holds whatever
    level it gives to a text. *)
Variable classify_heading : string → Z.

(** One turn of the loop [for element in root]. *)
Definition md_step (st : MdState) (element : XElement) : MdState :=
  if String.eqb (x_tag element) "heading" || String.eqb (x_tag element) "bold"
  then
    let heading_text := get_element_text element in
    let first := negb (first_heading_encountered st) &&
                 negb (py_startswith heading_text " ") in
    let lvl := if first then 1 else classify_heading heading_text in
    let stack := pop_sections (store st) lvl (section_stack st) in
    let new_section := length (store st) in
    mkState
      (add_child (hd 0%nat stack) new_section
         (store st ++ [mkSection (Some heading_text) lvl [] []]))
      (new_section :: stack)
      (first || first_heading_encountered st)
  else if String.eqb (x_tag element) "paragraph" then
    let text := get_element_text element in
    if py_truthy (py_strip text)
    then mkState (add_content (hd 0%nat (section_stack st)) text (store st))
           (section_stack st) (first_heading_encountered st)
    else st
  else if String.eqb (x_tag element) "table" then
    mkState (add_content (hd 0%nat (section_stack st))
               (convert_table_to_html element) (store st))
      (section_stack st) (first_heading_encountered st)
  else st.

Definition md_loop (elements : list XElement) : MdState :=
  foldl md_step initial_state elements.
End XmlToMd.

(** ['#' * n] *)
Definition hashes (n : Z) : string :=
  String.concat "" (replicate (Z.to_nat n) "#"%string).

(** [write_section(section, md_lines)], returning the lines it appends.
    The fuel bounds the depth of the recursion; a position without
    section gives [None]. *)
Fixpoint write_section (fuel : nat) (store : list MdSection) (section : nat)
    : option (list string) :=
  match fuel with
  | O => None
  | S fuel =>
      match store !! section with
      | None => None
      | Some s =>
          let head :=
            if py_truthy (default "" (heading s))
            then [hashes (level s) +:+ " " +:+ default "" (heading s) +:+
                  newline +:+ newline]
            else [] in
          let items := (λ item, item +:+ newline +:+ newline) <$> content s in
          (λ lines, head ++ items ++ lines) <$>
          (fix write_children (rest : list nat) : option (list string) :=
             match rest with
             | [] => Some []
             | child :: rest =>
                 match write_section fuel store child, write_children rest with
                 | Some lines, Some more => Some (lines ++ more)
                 | _, _ => None
                 end
             end) (sec_children s)
      end
  end.

(** [md_lines] as [xml_to_md] builds it from the children of the root
    section once the loop is over; the file holds these lines joined. *)
Definition md_lines (classify_heading : string → Z) (fuel : nat)
    (elements : list XElement) : option (list string) :=
  let st := md_loop classify_heading elements in
  match store st !! 0%nat with
  | None => None
  | Some root_section =>
      (fix write_children (rest : list nat) : option (list string) :=
         match rest with
         | [] => Some []
         | child :: rest =>
             match write_section fuel (store st) child, write_children rest with
             | Some lines, Some more => Some (lines ++ more)
             | _, _ => None
             end
         end) (sec_children root_section)
  end.

(** The lines of the elements taken one by one, in document order:
    [started] tells whether a [heading] or [bold] element came before. *)
Fixpoint lines_in_order (classify_heading : string → Z) (started : bool)
    (elements : list XElement) : list string :=
  match elements with
  | [] => []
  | element :: elements =>
      if String.eqb (x_tag element) "heading" || String.eqb (x_tag element) "bold"
      then
        let heading_text := get_element_text element in
        let lvl := if started then classify_heading heading_text else 1 in
        (if py_truthy heading_text
         then [hashes lvl +:+ " " +:+ heading_text +:+ newline +:+ newline]
         else []) ++ lines_in_order classify_heading true elements
      else if String.eqb (x_tag element) "paragraph" then
        (if started && py_truthy (py_strip (get_element_text element))
         then [get_element_text element +:+ newline +:+ newline] else []) ++
        lines_in_order classify_heading started elements
      else if String.eqb (x_tag element) "table" then
        (if started
         then [convert_table_to_html element +:+ newline +:+ newline] else []) ++
        lines_in_order classify_heading started elements
      else lines_in_order classify_heading started elements
  end.

(** The lines of the sections at the positions [children], one after the
    other: the loop over [section.children] in [write_section]. *)
Definition write_sections (fuel : nat) (store : list MdSection)
    (children : list nat) : option (list string) :=
  (fix write_children (rest : list nat) : option (list string) :=
     match rest with
     | [] => Some []
     | child :: rest =>
         match write_section fuel store child, write_children rest with
         | Some lines, Some more => Some (lines ++ more)
         | _, _ => None
         end
     end) children.

(** The heading line of a section and the lines of its content. *)
Definition sec_head (s : MdSection) : list string :=
  if py_truthy (default "" (heading s))
  then [hashes (level s) +:+ " " +:+ default "" (heading s) +:+
        newline +:+ newline]
  else [].

Definition sec_items (s : MdSection) : list string :=
  (λ item, item +:+ newline +:+ newline) <$> content s.

(** The store [h'] comes from [h] by changes at the positions in [open]
    and by new sections. *)
Definition agree (open : list nat) (h h' : list MdSection) : Prop :=
  (length h ≤ length h')%nat ∧
  ∀ i, (i < length h)%nat → i ∉ open → h' !! i = h !! i.

(** The sections at [ids] are written as [lines] in every such store. *)
Definition stable (h : list MdSection) (open : list nat) (ids : list nat)
    (lines : list string) : Prop :=
  ∃ d, ∀ h' fuel, agree open h h' → (d ≤ fuel)%nat →
                  write_sections fuel h' ids = Some lines.

(** [spine h open stack above X]: along [stack], from its top down to the
    root section at position 0, every section has as children sections
    that are finished, written as stable lines, followed by the section
    above it on the stack ([above], empty for the top); [X] is what is
    written before the lines of [above]. The root section itself writes
    no heading and no content. *)
Inductive spine (h : list MdSection) (open : list nat)
    : list nat → list nat → list string → Prop :=
  | spine_root above sec closed lines :
      h !! 0%nat = Some sec →
      sec_children sec = closed ++ above →
      stable h open closed lines →
      spine h open [0%nat] above lines
  | spine_cons s rest above sec closed lines X0 :
      h !! s = Some sec →
      sec_children sec = closed ++ above →
      stable h open closed lines →
      spine h open rest [s] X0 →
      spine h open (s :: rest) above
        (X0 ++ sec_head sec ++ sec_items sec ++ lines).

(** What holds of the state between two elements, [X] being the lines
    due so far. *)
Record md_inv (st : MdState) (X : list string) : Prop := {
  inv_spine : spine (store st) (section_stack st) (section_stack st) [] X;
  inv_nodup : NoDup (section_stack st);
  inv_bound : ∀ s, s ∈ section_stack st → (s < length (store st))%nat;
  inv_top : ∃ sec, store st !! hd 0%nat (section_stack st) = Some sec ∧
                   sec_children sec = [];
  inv_started : first_heading_encountered st = false ↔ section_stack st = [0%nat]
}.

(** A classification of headings for the examples. *)
Definition sample_classify (s : string) : Z :=
  if String.prefix "PART" s then 2
  else if String.prefix "Para" s then 4
  else if String.prefix "Intro" s then 3
  else 0.

Definition sample_element (tag text : string) : XElement :=
  mkXElement tag [] (Some text) (Some newline) [].

Definition sample_elements : list XElement :=
  [sample_element "paragraph" "lost"; sample_element "bold" " Title ";
   sample_element "paragraph" "p1"; sample_element "heading" "PART I";
   sample_element "paragraph" "p2"; sample_element "heading" "Intro";
   sample_element "heading" "Para 1"; sample_element "paragraph" "p3";
   sample_element "bold" "odd"; sample_element "paragraph" "p4";
   sample_element "heading" "PART II"; sample_element "paragraph" "p5"].

(** Every child of a section was made after the section. *)
Definition children_later (h : list MdSection) : Prop :=
  ∀ i sec c, h !! i = Some sec → c ∈ sec_children sec →
             (i < c < length h)%nat.

(** A document with a paragraph, a table and a list, and no heading. *)
Definition headingless_elements : list XElement :=
  [sample_element "paragraph" "alone";
   mkXElement "table" [] None (Some newline)
     [mkXElement "row" [] None None
        [mkXElement "cell" [("colspan", "2")] (Some "a") None []]];
   sample_element "list" "item"].

(** ** Facts about the built-ins *)

Lemma py_getitem_nonneg {A} (l : list A) (i : Z) :
  0 ≤ i →
  py_getitem l i =
    match l !! Z.to_nat i with Some x => Done x | None => Raise IndexError end.
Proof.
  intros Hi. unfold py_getitem.
  destruct (decide (i < 0)) as [?|_]; [lia|].
  destruct (decide (0 ≤ i < Z.of_nat (length l))) as [?|Hn]; [done|].
  rewrite (lookup_ge_None_2 l (Z.to_nat i)); [done|lia].
Qed.

Lemma py_getitem_cases {A} (l : list A) (i : Z) :
  (∃ x, py_getitem l i = Done x ∧ x ∈ l) ∨ py_getitem l i = Raise IndexError.
Proof.
  unfold py_getitem.
  destruct (decide (0 ≤ _ < _)); [|by right].
  destruct (l !! _) as [x|] eqn:E; [left|by right].
  exists x. split; [done|]. by eapply list_elem_of_lookup_2.
Qed.


Lemma py_getitem_Done_nonneg {A} (l : list A) (i : Z) x :
  0 ≤ i → py_getitem l i = Done x ↔ l !! Z.to_nat i = Some x.
Proof.
  intros Hi. rewrite py_getitem_nonneg by done.
  destruct (l !! _); split; congruence.
Qed.

Lemma py_getitem_fmap {A B} (f : A → B) (l : list A) (i : Z) :
  py_getitem (f <$> l) i =
    match py_getitem l i with
    | Done x => Done (f x)
    | Raise e => Raise e
    | Timeout => Timeout
    end.
Proof.
  unfold py_getitem. rewrite length_fmap, list_lookup_fmap.
  destruct (decide (0 ≤ _ < _)); [|done].
  by destruct (l !! _).
Qed.

Lemma elem_of_py_range (a b x : Z) : x ∈ py_range a b ↔ a ≤ x < b.
Proof. unfold py_range. rewrite elem_of_seqZ. lia. Qed.

Lemma py_range_cons (a b : Z) :
  a < b → py_range a b = a :: py_range (a + 1) b.
Proof.
  intros H. unfold py_range. rewrite seqZ_cons by lia.
  f_equal. f_equal; lia.
Qed.

Lemma py_range_nil (a b : Z) : b ≤ a → py_range a b = [].
Proof. intros H. unfold py_range. apply seqZ_nil. lia. Qed.

Lemma py_max_Done_ge (xs : list Z) (m x : Z) :
  py_max xs = Done m → x ∈ xs → x ≤ m.
Proof.
  destruct xs as [|y ys]; [done|]. simpl. intros [= <-].
  assert (∀ (l : list Z) a, a ≤ foldl Z.max a l ∧
            ∀ z, z ∈ l → z ≤ foldl Z.max a l) as H.
  { induction l as [|b l IH]; intros a; simpl.
    - split; [lia|]. intros z Hz. by apply elem_of_nil in Hz.
    - destruct (IH (Z.max a b)) as [H1 H2]. split; [lia|].
      intros z [->|Hz]%elem_of_cons; [lia|auto]. }
  destruct (H ys y) as [H1 H2].
  intros [->|Hx]%elem_of_cons; [lia|auto].
Qed.

(** ** The processed set after marking a span *)

Lemma elem_of_mark_row (i : Z) (js : list Z) (P : gset (Z * Z)) (a b : Z) :
  (a, b) ∈ mark_row i js P ↔ (a, b) ∈ P ∨ (a = i ∧ b ∈ js).
Proof.
  unfold mark_row. revert P. induction js as [|j js IH]; intros P; simpl.
  - rewrite elem_of_nil. tauto.
  - rewrite IH, elem_of_union, elem_of_singleton, elem_of_cons.
    split; [intros [[?|[= -> ->]]|[? ?]]|intros [?|[-> [->|?]]]]; tauto.
Qed.

Lemma elem_of_mark_span (r c rowspan colspan : Z) (P : gset (Z * Z)) (a b : Z) :
  (a, b) ∈ mark_span r c rowspan colspan P ↔
  (a, b) ∈ P ∨ (r ≤ a < r + rowspan ∧ c ≤ b < c + colspan).
Proof.
  unfold mark_span.
  assert (∀ (rs : list Z) (Q : gset (Z * Z)),
    (a, b) ∈ foldl (λ s i, mark_row i (py_range c (c + colspan)) s) Q rs ↔
    (a, b) ∈ Q ∨ (a ∈ rs ∧ c ≤ b < c + colspan)) as H.
  { induction rs as [|i rs IH]; intros Q; simpl.
    - rewrite elem_of_nil. tauto.
    - rewrite IH, elem_of_mark_row, elem_of_py_range, elem_of_cons.
      split; [intros [[?|[-> ?]]|[? ?]]|intros [?|[[->|?] ?]]]; tauto. }
  rewrite H, elem_of_py_range. done.
Qed.

(** ** The rowspan computation *)

Lemma rowspan_loop_run (table : Table) (c : Z) (k : nat) (rowspan : Z) :
  rowspan_loop table (py_range (Z.of_nat k) (Z.of_nat (length table))) c rowspan
  = Done (rowspan + continuation_run (drop k table) c).
Proof.
  remember (length table - k)%nat as n eqn:Hn.
  revert k rowspan Hn. induction n as [|n IH]; intros k rowspan Hn.
  - rewrite py_range_nil by lia. rewrite drop_ge by lia. simpl. f_equal. lia.
  - rewrite py_range_cons by lia.
    destruct (lookup_lt_is_Some_2 table k) as [row Hrow]; [lia|].
    rewrite (drop_S _ _ _ Hrow). simpl.
    unfold table_cell. rewrite py_getitem_nonneg by lia.
    rewrite Nat2Z.id, Hrow. simpl. unfold has_continuation.
    destruct (py_getitem_cases row c) as [(x & -> & _)| ->]; simpl.
    + destruct (is_continuation x).
      * replace (Z.of_nat k + 1) with (Z.of_nat (S k)) by lia.
        rewrite IH by lia. f_equal. lia.
      * f_equal. lia.
    + f_equal. lia.
Qed.

Lemma continuation_run_nonneg (below : list Row) (c : Z) :
  0 ≤ continuation_run below c.
Proof.
  induction below as [|row below IH]; simpl; [lia|].
  destruct (has_continuation row c); lia.
Qed.

Lemma continuation_run_lookup (below : list Row) (c : Z) (k : nat) :
  Z.of_nat k < continuation_run below c →
  ∃ row, below !! k = Some row ∧ has_continuation row c = true.
Proof.
  revert k. induction below as [|row below IH]; intros k; simpl; [lia|].
  destruct (has_continuation row c) eqn:E; [|lia].
  destruct k as [|k]; simpl.
  - eauto.
  - intros H. apply IH. lia.
Qed.

Lemma rowspan_of_spec (table : Table) (cell : RawCell) (r c : Z) :
  0 ≤ r →
  rowspan_of table cell r c =
    Done (if is_restart cell
          then 1 + continuation_run (drop (S (Z.to_nat r)) table) c
          else 1).
Proof.
  intros Hr. unfold rowspan_of. destruct (is_restart cell); [|done].
  replace (r + 1) with (Z.of_nat (S (Z.to_nat r))) by lia.
  apply rowspan_loop_run.
Qed.

Lemma rowspan_of_run (table : Table) (cell : RawCell) (r c rowspan : Z) :
  0 ≤ r →
  rowspan_of table cell r c = Done rowspan →
  1 ≤ rowspan ∧ ∀ i, r < i < r + rowspan → continuation_at table i c.
Proof.
  intros Hr. rewrite rowspan_of_spec by done. intros [= <-].
  destruct (is_restart cell).
  - pose proof (continuation_run_nonneg (drop (S (Z.to_nat r)) table) c).
    split; [lia|]. intros i Hi.
    destruct (continuation_run_lookup (drop (S (Z.to_nat r)) table) c
                (Z.to_nat (i - r - 1))) as (row & Hrow & Hc); [lia|].
    exists row. split; [|done].
    rewrite lookup_drop in Hrow. rewrite <- Hrow. f_equal. lia.
  - split; [lia|]. intros i Hi. lia.
Qed.

Lemma table_cell_cases (table : Table) (i c : Z) :
  (∃ x, table_cell table i c = Done x) ∨ table_cell table i c = Raise IndexError.
Proof.
  unfold table_cell.
  destruct (py_getitem_cases table i) as [(row & -> & _)| ->]; simpl; [|by right].
  destruct (py_getitem_cases row c) as [(x & -> & _)| ->]; eauto.
Qed.

Lemma rowspan_loop_Done (table : Table) (todo : list Z) (c rowspan : Z) :
  ∃ n, rowspan_loop table todo c rowspan = Done n ∧ rowspan ≤ n.
Proof.
  revert rowspan. induction todo as [|i todo IH]; intros rowspan; simpl.
  - exists rowspan. split; [done|lia].
  - destruct (table_cell_cases table i c) as [(x & ->)| ->]; simpl.
    + destruct (is_continuation x).
      * destruct (IH (rowspan + 1)) as (n & -> & ?). exists n. split; [done|lia].
      * exists rowspan. split; [done|lia].
    + exists rowspan. split; [done|lia].
Qed.

Lemma rowspan_of_Done (table : Table) (cell : RawCell) (r c : Z) :
  ∃ n, rowspan_of table cell r c = Done n ∧ 1 ≤ n.
Proof.
  unfold rowspan_of. destruct (is_restart cell).
  - apply rowspan_loop_Done.
  - exists 1. split; [done|lia].
Qed.

(** ** The loops and their traces *)

Section TraceFacts.
Context (table : Table) (n_cols : Z).
Context (process_nested : Table → outcome ResolvedTable).

Lemma scan_row_trace fuel r row c P acc cells P' :
  scan_row table n_cols process_nested fuel r row c P acc = Done (cells, P') →
  ∃ new, cells = acc ++ new ∧
         scan_trace table n_cols process_nested r row c P new P'.
Proof.
  revert c P acc. induction fuel as [|fuel IH]; intros c P acc; simpl; [done|].
  destruct (decide (c < n_cols)) as [Hc|Hc].
  - destruct (decide ((r, c) ∈ P)) as [HP|HP].
    + intros (new & -> & Ht)%IH. exists new. split; [done|].
      by apply scan_skip.
    + destruct (py_getitem_cases row c) as [(cell & Hcell & _)|Hcell];
        rewrite Hcell; simpl.
      * destruct (rowspan_of_Done table cell r c) as (n & Hn & _).
        rewrite Hn. simpl.
        destruct (process_tables process_nested (tables cell))
          as [nested| |] eqn:Hnested; simpl; [|done..].
        intros (new & -> & Ht)%IH. eexists. split.
        { by rewrite <- app_assoc. }
        by eapply scan_emit.
      * intros [= <- <-]. exists []. split; [by rewrite app_nil_r|].
        by apply scan_break.
  - intros [= <- <-]. exists []. split; [by rewrite app_nil_r|].
    by apply scan_exit.
Qed.

Lemma process_rows_trace fuel r rows P out :
  process_rows table n_cols process_nested fuel r rows P = Done out →
  ∃ P'', rows_trace table n_cols process_nested r rows P out P''.
Proof.
  revert r P out. induction rows as [|row rows IH]; intros r P out; simpl.
  - intros [= <-]. exists P. constructor.
  - destruct (scan_row _ _ _ fuel r row 0 P []) as [[cells P']| |] eqn:Hs;
      simpl; [|done..].
    destruct (process_rows _ _ _ fuel (r + 1) rows P') as [out'| |] eqn:Hr;
      simpl; [|done..].
    intros [= <-].
    apply scan_row_trace in Hs as (new & -> & Hs).
    apply IH in Hr as (P'' & Hr).
    exists P''. by econstructor.
Qed.
End TraceFacts.

Section ScanFacts.
Context (table : Table) (n_cols : Z).
Context (process_nested : Table → outcome ResolvedTable).

Local Abbreviation scan_row := (scan_row table n_cols process_nested).
Local Abbreviation scan_trace := (scan_trace table n_cols process_nested).
Local Abbreviation rows_trace := (rows_trace table n_cols process_nested).

(** One iteration of the [while] loop that emits a cell. *)
Lemma scan_row_emit_step fuel r row c P acc cell rowspan nested :
  c < n_cols → (r, c) ∉ P →
  py_getitem row c = Done cell →
  rowspan_of table cell r c = Done rowspan →
  process_tables process_nested (tables cell) = Done nested →
  scan_row (S fuel) r row c P acc =
  scan_row fuel r row (c + colspan_of cell)
    (mark_span r c rowspan (colspan_of cell) P)
    (acc ++ [mkResolvedCell r c rowspan (colspan_of cell)
               (py_join newline (paragraphs cell)) nested]).
Proof.
  intros Hc HP Hcell Hrs Hnested. simpl.
  rewrite decide_True by done. rewrite decide_False by done.
  rewrite Hcell. simpl. rewrite Hrs. simpl. by rewrite Hnested.
Qed.

(** The processed set only grows, by the rectangles of the emitted cells. *)
Lemma scan_trace_processed r row c P new P' :
  scan_trace r row c P new P' →
  ∀ i j, (i, j) ∈ P' ↔ (i, j) ∈ P ∨ ∃ e, e ∈ new ∧ covers e i j.
Proof.
  induction 1 as [c P Hc|c P new P' Hc HP Ht IH|c P Hc HP Hrow
                 |c P cell rowspan nested new P' Hc HP Hcell Hrs Hn Ht IH];
    intros i j.
  - split; [tauto|]. intros [?|(e & []%elem_of_nil & _)]. done.
  - apply IH.
  - split; [tauto|]. intros [?|(e & []%elem_of_nil & _)]. done.
  - rewrite IH, elem_of_mark_span. split.
    + intros [[?|Hcov]|(e & He & Hcov)]; [by left|right..].
      * eexists. split; [apply elem_of_cons; by left|]. done.
      * exists e. split; [apply elem_of_cons; by right|]. done.
    + intros [?|(e & [->|He]%elem_of_cons & Hcov)]; [tauto|by left; right|].
      right. eauto.
Qed.

Lemma scan_trace_emitted_from r row c P new P' :
  scan_trace r row c P new P' →
  Forall (emitted_from table process_nested r row) new.
Proof.
  induction 1 as [| | |c P cell rowspan nested new P' Hc HP Hcell Hrs Hn Ht IH];
    try done.
  constructor; [|done]. split; [done|]. by exists cell.
Qed.

(** A cell is emitted only at a coordinate that is not yet processed. *)
Lemma scan_trace_fresh r row c P new P' :
  scan_trace r row c P new P' →
  ∀ e, e ∈ new → (r, rc_col e) ∉ P.
Proof.
  induction 1 as [| | |c P cell rowspan nested new P' Hc HP Hcell Hrs Hn Ht IH];
    intros e He; try by apply elem_of_nil in He.
  - auto.
  - apply elem_of_cons in He as [->|He]; [done|].
    intros Hin. apply (IH e He). apply elem_of_mark_span. by left.
Qed.

(** The scan never moves to the left of column 0 when it starts at or
    after it and every span count of the row is at least 1; the emitted
    cells then lie in the row, from left to right. *)
Lemma scan_trace_ordered r row c P new P' :
  (∀ x, x ∈ row → 1 ≤ colspan_of x) →
  0 ≤ c →
  scan_trace r row c P new P' →
  ∀ k e, new !! k = Some e →
    c ≤ rc_col e < Z.of_nat (length row) ∧ 1 ≤ rc_colspan e ∧
    ∀ k' e', new !! k' = Some e' → (k < k')%nat →
             rc_col e + rc_colspan e ≤ rc_col e'.
Proof.
  intros Hspan Hc0 Ht. revert Hc0.
  induction Ht as [|c P new P' Hc HP Ht IH|
                  |c P cell rowspan nested new P' Hc HP Hcell Hrs Hn Ht IH];
    intros Hc0 k e Hk; try done.
  - destruct (IH ltac:(lia) k e Hk) as (? & ? & ?). split; [lia|]. done.
  - assert (cell ∈ row ∧ c < Z.of_nat (length row)) as [Hin Hlt].
    { apply py_getitem_Done_nonneg in Hcell; [|done]. split.
      - by eapply list_elem_of_lookup_2.
      - apply lookup_lt_Some in Hcell. lia. }
    pose proof (Hspan _ Hin) as Hn1.
    destruct k as [|k]; simpl in Hk.
    + injection Hk as <-. simpl. split; [lia|]. split; [done|].
      intros [|k'] e' Hk' Hlt'; [lia|]. simpl in Hk'.
      destruct (IH ltac:(lia) k' e' Hk') as (? & _). lia.
    + destruct (IH ltac:(lia) k e Hk) as (? & ? & Hlater).
      split; [lia|]. split; [done|].
      intros [|k'] e' Hk' Hlt'; [lia|]. simpl in Hk'.
      apply (Hlater k' e' Hk'). lia.
Qed.

(** Where the scan stops, every coordinate of the row from the entry
    column on has been processed. *)
Lemma scan_trace_row_covered r row c P new P' :
  (∀ x, x ∈ row → 1 ≤ colspan_of x) →
  Z.of_nat (length row) ≤ n_cols →
  0 ≤ c →
  scan_trace r row c P new P' →
  ∀ j, c ≤ j < Z.of_nat (length row) → (r, j) ∈ P'.
Proof.
  intros Hspan Hlen Hc0 Ht. revert Hc0.
  induction Ht as [c P Hc|c P new P' Hc HP Ht IH|c P Hc HP Hrow
                  |c P cell rowspan nested new P' Hc HP Hcell Hrs Hn Ht IH];
    intros Hc0 j Hj.
  - lia.
  - destruct (decide (j = c)) as [->|Hne].
    + apply (scan_trace_processed _ _ _ _ _ _ Ht). by left.
    + apply IH; lia.
  - rewrite py_getitem_nonneg in Hrow by done.
    destruct (row !! Z.to_nat c) eqn:E; [done|].
    apply lookup_ge_None in E. lia.
  - assert (cell ∈ row) as Hin.
    { apply py_getitem_Done_nonneg in Hcell; [|done].
      by eapply list_elem_of_lookup_2. }
    pose proof (Hspan _ Hin) as Hn1.
    destruct (rowspan_of_Done table cell r c) as (n & Hn' & Hn1').
    assert (n = rowspan) as -> by congruence.
    destruct (decide (j < c + colspan_of cell)) as [Hlt|Hge].
    + apply (scan_trace_processed _ _ _ _ _ _ Ht). left.
      apply elem_of_mark_span. right. lia.
    + apply IH; lia.
Qed.

(** A row all of whose cells are already claimed emits nothing. *)
Lemma scan_trace_claimed r row c P new P' :
  (∀ j, 0 ≤ j < Z.of_nat (length row) → (r, j) ∈ P) →
  0 ≤ c →
  scan_trace r row c P new P' →
  new = [] ∧ P' = P.
Proof.
  intros Hclaimed Hc0 Ht. revert Hc0.
  induction Ht as [|c P new P' Hc HP Ht IH|
                  |c P cell rowspan nested new P' Hc HP Hcell Hrs Hn Ht IH];
    intros Hc0; try done.
  - apply IH; [done|lia].
  - apply py_getitem_Done_nonneg in Hcell; [|done].
    apply lookup_lt_Some in Hcell. destruct HP. apply Hclaimed. lia.
Qed.
End ScanFacts.

(** ** The rows loop *)

Section RowsFacts.
Context (table : Table) (n_cols : Z).
Context (process_nested : Table → outcome ResolvedTable).

Local Abbreviation scan_trace := (scan_trace table n_cols process_nested).
Local Abbreviation rows_trace := (rows_trace table n_cols process_nested).

Lemma rows_trace_length r rows P out P'' :
  rows_trace r rows P out P'' → length out = length rows.
Proof. induction 1; simpl; congruence. Qed.

Lemma rows_trace_processed r rows P out P'' :
  rows_trace r rows P out P'' →
  ∀ i j, (i, j) ∈ P'' ↔ (i, j) ∈ P ∨ ∃ e, e ∈ concat out ∧ covers e i j.
Proof.
  induction 1 as [r P|r row rows P cells P' out P'' Hs Hr IH]; intros i j; simpl.
  - split; [tauto|]. intros [?|(e & []%elem_of_nil & _)]. done.
  - rewrite IH, (scan_trace_processed _ _ _ _ _ _ _ _ _ Hs). split.
    + intros [[?|(e & He & Hc)]|(e & He & Hc)]; [by left|right; exists e..];
        rewrite elem_of_app; tauto.
    + intros [?|(e & [He|He]%elem_of_app & Hc)]; [tauto| |]; eauto.
Qed.

(** The scan of the [k]-th remaining row, with the processed set it
    starts from. *)
Lemma rows_trace_lookup r rows P out P'' k row :
  rows_trace r rows P out P'' →
  rows !! k = Some row →
  ∃ cells Pk Pk',
    out !! k = Some cells ∧
    scan_trace (r + Z.of_nat k) row 0 Pk cells Pk' ∧
    ∀ i j, (i, j) ∈ Pk ↔
           (i, j) ∈ P ∨ ∃ e, e ∈ concat (take k out) ∧ covers e i j.
Proof.
  intros Ht. revert k.
  induction Ht as [r P|r row0 rows P cells P' out P'' Hs Hr IH]; intros k Hk.
  - done.
  - destruct k as [|k]; simpl in Hk.
    + injection Hk as ->. exists cells, P, P'. split; [done|].
      split; [by replace (r + Z.of_nat 0) with r by lia|].
      intros i j. simpl. split; [tauto|].
      intros [?|(e & []%elem_of_nil & _)]. done.
    + destruct (IH k Hk) as (cells' & Pk & Pk' & Hout & Hscan & HPk).
      exists cells', Pk, Pk'. split; [done|].
      split; [by replace (r + Z.of_nat (S k)) with (r + 1 + Z.of_nat k) by lia|].
      intros i j. rewrite HPk, (scan_trace_processed _ _ _ _ _ _ _ _ _ Hs).
      simpl. split.
      * intros [[?|(e & He & Hc)]|(e & He & Hc)]; [by left|right; exists e..];
          rewrite elem_of_app; tauto.
      * intros [?|(e & [He|He]%elem_of_app & Hc)]; [tauto| |]; eauto.
Qed.
End RowsFacts.

(** ** One call of [process_table] *)

Lemma resolve_table_trace fuel table out :
  resolve_table fuel table = Done out →
  ∃ fuel' n_cols P'',
    fuel = S fuel' ∧ n_cols_of table = Done n_cols ∧
    rows_trace table n_cols (resolve_table fuel') 0 table ∅ out P''.
Proof.
  destruct fuel as [|fuel]; simpl; [done|].
  destruct (n_cols_of table) as [n_cols| |] eqn:Hn; simpl; [|done..].
  intros (P'' & Ht)%process_rows_trace. by exists fuel, n_cols, P''.
Qed.

Lemma n_cols_of_ge table n_cols row :
  n_cols_of table = Done n_cols → row ∈ table →
  Z.of_nat (length row) ≤ n_cols.
Proof.
  unfold n_cols_of. intros Hn Hrow. eapply py_max_Done_ge; [done|].
  apply list_elem_of_fmap. by exists row.
Qed.

(** ** Tiling *)

Section Tiling.
Context (table : Table) (n_cols : Z).
Context (process_nested : Table → outcome ResolvedTable).
Hypothesis Hspan : ∀ row x, row ∈ table → x ∈ row → 1 ≤ colspan_of x.
Hypothesis Hcols : ∀ row, row ∈ table → Z.of_nat (length row) ≤ n_cols.

Local Abbreviation scan_trace := (scan_trace table n_cols process_nested).
Local Abbreviation rows_trace := (rows_trace table n_cols process_nested).

Lemma grid_inv_init : grid_inv table 0 ∅ [].
Proof.
  split.
  - intros i j. split; [by intros ?%not_elem_of_empty|].
    intros (e & []%elem_of_nil & _).
  - intros e []%elem_of_nil.
  - intros i j row Hi. lia.
  - intros _ k1 k2 e1 e2 i j Hk1. done.
Qed.

Lemma grid_inv_row r row P E cells P' :
  0 ≤ r → table !! Z.to_nat r = Some row →
  grid_inv table r P E →
  scan_trace r row 0 P cells P' →
  grid_inv table (r + 1) P' (E ++ cells).
Proof.
  intros Hr Hrow [HP HE Hcov Hdis] Ht.
  assert (row ∈ table) as Hin by (by eapply list_elem_of_lookup_2).
  pose proof (scan_trace_processed _ _ _ _ _ _ _ _ _ Ht) as HP'.
  pose proof (scan_trace_emitted_from _ _ _ _ _ _ _ _ _ Ht) as Hfrom.
  pose proof (scan_trace_fresh _ _ _ _ _ _ _ _ _ Ht) as Hfresh.
  pose proof (scan_trace_ordered _ _ _ _ _ _ _ _ _ (λ x, Hspan row x Hin)
                (Z.le_refl 0) Ht) as Hord.
  rewrite Forall_forall in Hfrom.
  assert (∀ e, e ∈ cells →
            rc_row e = r ∧ 1 ≤ rc_rowspan e ∧
            ∀ i, rc_row e < i < rc_row e + rc_rowspan e →
                 continuation_at table i (rc_col e)) as Hnew.
  { intros e He. destruct (Hfrom e He) as (Hre & cell & _ & _ & Hrs & _).
    apply rowspan_of_run in Hrs as [? ?]; [|done].
    rewrite Hre. auto. }
  split.
  - intros i j. rewrite HP', HP. split.
    + intros [(e & He & Hc)|(e & He & Hc)]; exists e;
        rewrite elem_of_app; tauto.
    + intros (e & [He|He]%elem_of_app & Hc); eauto.
  - intros e [He|He]%elem_of_app.
    + destruct (HE e He) as (? & ? & ?). split; [lia|]. done.
    + destruct (Hnew e He) as (? & ? & ?). split; [lia|]. done.
  - intros i j row' Hi Hrow' Hj.
    destruct (decide (i = r)) as [->|Hne].
    + assert (row' = row) as -> by congruence.
      eapply scan_trace_row_covered; [apply (λ x, Hspan row x Hin)|auto| |done|lia].
      lia.
    + apply HP'. left. eapply Hcov; [|done..]. lia.
  - intros Hgood. apply Forall_app in Hgood as [HgoodE Hgoodc].
    rewrite Forall_forall in Hgoodc.
    assert (∀ k1 k2 e1 e2 i j,
              E !! k1 = Some e1 → cells !! k2 = Some e2 →
              covers e1 i j → covers e2 i j → False) as Hcross.
    { intros k1 k2 e1 e2 i j Hk1 Hk2 [Hi1 Hj1] [Hi2 Hj2].
      apply list_elem_of_lookup_2 in Hk1, Hk2.
      destruct (HE e1 Hk1) as (Hr1 & _ & Hrun).
      destruct (Hnew e2 Hk2) as (Hr2 & _ & _).
      destruct (decide (rc_col e1 ≤ rc_col e2)) as [Hle|Hgt].
      - apply (Hfresh e2 Hk2). apply HP. exists e1. split; [done|].
        split; lia.
      - apply (Hgoodc e2 Hk2 (rc_col e1)); [lia|].
        rewrite Hr2. apply Hrun. lia. }
    intros k1 k2 e1 e2 i j Hk1 Hk2 Hc1 Hc2.
    apply lookup_app_Some in Hk1 as [Hk1|[Hl1 Hk1]];
      apply lookup_app_Some in Hk2 as [Hk2|[Hl2 Hk2]].
    + by eapply (Hdis HgoodE).
    + destruct (Hcross _ _ _ _ _ _ Hk1 Hk2 Hc1 Hc2).
    + destruct (Hcross _ _ _ _ _ _ Hk2 Hk1 Hc2 Hc1).
    + destruct Hc1 as [_ Hj1], Hc2 as [_ Hj2].
      destruct (Hord _ _ Hk1) as (_ & _ & Hlater1).
      destruct (Hord _ _ Hk2) as (_ & _ & Hlater2).
      destruct (Nat.lt_trichotomy (k1 - length E) (k2 - length E))
        as [Hlt|[Heq|Hlt]].
      * specialize (Hlater1 _ _ Hk2 Hlt). lia.
      * lia.
      * specialize (Hlater2 _ _ Hk1 Hlt). lia.
Qed.

Lemma grid_inv_rows r rows P E out P'' :
  0 ≤ r →
  (∀ k row, rows !! k = Some row → table !! (Z.to_nat r + k)%nat = Some row) →
  grid_inv table r P E →
  rows_trace r rows P out P'' →
  grid_inv table (r + Z.of_nat (length rows)) P'' (E ++ concat out).
Proof.
  intros Hr Hrows Hinv Ht. revert E Hr Hrows Hinv.
  induction Ht as [r P|r row rows P cells P' out P'' Hs Ht IH];
    intros E Hr Hrows Hinv; simpl.
  - rewrite app_nil_r. by replace (r + Z.of_nat 0) with r by lia.
  - replace (r + Z.of_nat (S (length rows)))
      with (r + 1 + Z.of_nat (length rows)) by lia.
    rewrite app_assoc. apply IH; [lia| |].
    + intros k row' Hk. specialize (Hrows (S k) row' Hk).
      rewrite <- Hrows. f_equal. lia.
    + eapply grid_inv_row; [done| |done..].
      specialize (Hrows 0%nat row eq_refl). by rewrite Nat.add_0_r in Hrows.
Qed.
End Tiling.

Lemma resolve_table_row fuel (table : Table) out (r : nat) cells :
  resolve_table fuel table = Done out →
  out !! r = Some cells →
  ∃ fuel' n_cols row P P',
    fuel = S fuel' ∧ n_cols_of table = Done n_cols ∧
    table !! r = Some row ∧
    scan_trace table n_cols (resolve_table fuel') (Z.of_nat r) row 0 P cells P' ∧
    ∀ i j, (i, j) ∈ P ↔ ∃ e, e ∈ concat (take r out) ∧ covers e i j.
Proof.
  intros (fuel' & n_cols & P'' & -> & Hn & Ht)%resolve_table_trace Hcells.
  pose proof (rows_trace_length _ _ _ _ _ _ _ _ Ht) as Hlen.
  destruct (lookup_lt_is_Some_2 table r) as [row Hrow].
  { apply lookup_lt_Some in Hcells. lia. }
  destruct (rows_trace_lookup _ _ _ _ _ _ _ _ _ _ Ht Hrow)
    as (cells' & P & P' & Hout & Hs & HP).
  assert (cells' = cells) as -> by congruence.
  exists fuel', n_cols, row, P, P'. repeat split; try done.
  - intros Hin. apply HP in Hin as [[]%not_elem_of_empty|?]. done.
  - intros ?. apply HP. by right.
Qed.

(** For a list of rows whose span counts are all at least 1, every
    coordinate inside a row of the grid is claimed by the rectangle of at
    least one emitted cell; and when no emitted cell of colspan [n] has a
    continuation cell among the [n - 1] coordinates to its right, no
    coordinate is claimed twice. *)
Lemma spans_tile_grid fuel (table : Table) out :
  Forall (Forall (λ x, 1 ≤ colspan_of x)) table →
  resolve_table fuel table = Done out →
  (∀ (r c : nat) row,
     table !! r = Some row → (c < length row)%nat →
     ∃ k e, concat out !! k = Some e ∧ covers e (Z.of_nat r) (Z.of_nat c)) ∧
  (Forall (no_continuation_inside table) (concat out) →
   disjoint_spans (concat out)).
Proof.
  intros Hspan (fuel' & n_cols & P'' & -> & Hn & Ht)%resolve_table_trace.
  assert (grid_inv table (0 + Z.of_nat (length table)) P'' ([] ++ concat out))
    as [HP HE Hcov Hdis].
  { eapply grid_inv_rows; [| |done| |apply grid_inv_init|done].
    - intros row x Hrow Hx. rewrite Forall_forall in Hspan.
      specialize (Hspan row Hrow). rewrite Forall_forall in Hspan. auto.
    - intros row Hrow. by eapply n_cols_of_ge.
    - intros k row Hk. done. }
  simpl in *. split; [|done].
  intros r c row Hrow Hc.
  destruct (HP (Z.of_nat r) (Z.of_nat c)) as [(e & He & Hcv) _].
  { apply (Hcov _ _ row); [|by rewrite Nat2Z.id|lia].
    apply lookup_lt_Some in Hrow. lia. }
  apply list_elem_of_lookup_1 in He as [k Hk]. eauto.
Qed.

(** A span count below 1 claims nothing: the coordinate of the cell that
    carries it stays unclaimed. *)
Lemma nonpositive_span_leaves_gap :
  resolve_table 5 [[span_cell (-5) "A"]]
    = Done [[mkResolvedCell 0 0 1 (-5) "A" []]] ∧
  ¬ covers (mkResolvedCell 0 0 1 (-5) "A" []) 0 0.
Proof.
  split; [vm_compute; reflexivity|].
  unfold covers. simpl. lia.
Qed.

(** Were a continuation cell handed over, the rectangles could overlap:
    on [overlap_table] coordinate (1, 1) is claimed both by the cell
    emitted at (0, 1), whose rowspan is 2, and by the cell emitted at
    (1, 0), whose colspan is 2. *)
Lemma tiling_fails_on_overlap :
  ∃ out, resolve_table 5 overlap_table = Done out ∧ ¬ tiles overlap_table out.
Proof.
  eexists. split; [vm_compute; reflexivity|].
  intros [_ Hdis].
  specialize (Hdis 1%nat 2%nat _ _ 1 1 eq_refl eq_refl).
  assert (1%nat = 2%nat) as Heq; [|discriminate Heq].
  apply Hdis; unfold covers; simpl; lia.
Qed.

(** ** Rowspan of a vertical-merge start *)

Lemma continuation_run_app (conts rest : list Row) (c : Z) :
  Forall (λ row, has_continuation row c = true) conts →
  match rest with
  | [] => True
  | row :: _ => has_continuation row c = false
  end →
  continuation_run (conts ++ rest) c = Z.of_nat (length conts).
Proof.
  intros Hconts Hrest. induction Hconts as [|row conts Hrow _ IH]; simpl.
  - destruct rest as [|row rest]; simpl; [done|]. by rewrite Hrest.
  - rewrite Hrow, IH. lia.
Qed.

(** What the rowspan loop counts: for a source cell that is a
    vertical-merge start, 1 plus the length of the run of cells right
    below it in its column, among those [table.cell] returns, that carry
    the continuation directive. *)
Lemma rowspan_counts_continuations fuel (table : Table) out (r : nat) cells e :
  resolve_table fuel table = Done out →
  out !! r = Some cells →
  e ∈ cells →
  ∃ row cell,
    table !! r = Some row ∧
    rc_row e = Z.of_nat r ∧
    py_getitem row (rc_col e) = Done cell ∧
    (is_restart cell = true →
     rc_rowspan e = 1 + continuation_run (drop (S r) table) (rc_col e) ∧
     ∀ conts rest,
       drop (S r) table = conts ++ rest →
       Forall (λ row, has_continuation row (rc_col e) = true) conts →
       match rest with
       | [] => True
       | row :: _ => has_continuation row (rc_col e) = false
       end →
       rc_rowspan e = Z.of_nat (length conts) + 1).
Proof.
  intros Hres Hcells He.
  destruct (resolve_table_row _ _ _ _ _ Hres Hcells)
    as (fuel' & n_cols & row & P & P' & -> & Hn & Hrow & Hs & _).
  apply scan_trace_emitted_from in Hs. rewrite Forall_forall in Hs.
  destruct (Hs e He) as (Hr & cell & Hcell & _ & Hrs & _).
  exists row, cell. split; [done|]. split; [done|]. split; [done|].
  intros Hstart. rewrite rowspan_of_spec in Hrs by lia.
  rewrite Hstart in Hrs. injection Hrs as <-. rewrite Nat2Z.id.
  split; [done|]. intros conts rest Hdrop Hconts Hrest.
  rewrite Hdrop, continuation_run_app by done. lia.
Qed.

(** ** One emitted cell per scanned cell *)

Section EmitStep.
Context (table : Table) (n_cols : Z).
Context (process_nested : Table → outcome ResolvedTable).

Local Abbreviation scan_row := (scan_row table n_cols process_nested).

(** What the loop body does with a cell that carries the continuation
    directive, were one handed over: it is not a start, so its rowspan
    is 1 and it is emitted with its own span count. *)
Lemma stray_continuation_is_fresh_cell fuel r row c P acc cell nested :
  c < n_cols → (r, c) ∉ P →
  py_getitem row c = Done cell →
  is_continuation cell = true →
  process_tables process_nested (tables cell) = Done nested →
  rowspan_of table cell r c = Done 1 ∧
  scan_row (S fuel) r row c P acc
    = scan_row fuel r row (c + colspan_of cell)
        (mark_span r c 1 (colspan_of cell) P)
        (acc ++ [mkResolvedCell r c 1 (colspan_of cell)
                   (py_join newline (paragraphs cell)) nested]).
Proof.
  intros Hc HP Hcell Hcont Hnested.
  assert (rowspan_of table cell r c = Done 1) as Hrs.
  { unfold rowspan_of, is_restart. unfold is_continuation in Hcont.
    by destruct (vMerge cell) as [[v|]|]. }
  split; [done|]. by apply scan_row_emit_step.
Qed.
End EmitStep.

(** ** The element tree of a table *)

Lemma process_table_Done fuel parent_el (table : Table) el :
  process_table fuel parent_el table = Done el →
  ∃ out, resolve_table fuel table = Done out ∧
         el = SubElement parent_el (table_el out).
Proof.
  unfold process_table.
  destruct (resolve_table fuel table) as [out| |]; simpl; [|done..].
  intros [= <-]. by exists out.
Qed.

Lemma resolve_table_length fuel (table : Table) out :
  resolve_table fuel table = Done out → length out = length table.
Proof.
  intros (fuel' & n_cols & P'' & -> & Hn & Ht)%resolve_table_trace.
  by eapply rows_trace_length.
Qed.

(** C9. The [table] element gets one [row] child per input row, in input
    order: the cells of the [r]-th child are those emitted from the
    [r]-th input row. A row all of whose coordinates are claimed by cells
    of earlier rows still gets its child, with no [cell] in it. *)
Theorem one_row_per_input_row fuel parent_el (table : Table) el :
  process_table fuel parent_el table = Done el →
  ∃ out,
    el = SubElement parent_el (table_el out) ∧
    tag (table_el out) = "table"%string ∧
    children (table_el out) = row_el <$> out ∧
    length (children (table_el out)) = length table ∧
    ∀ (r : nat) row,
      table !! r = Some row →
      ∃ cells,
        out !! r = Some cells ∧
        children (table_el out) !! r = Some (row_el cells) ∧
        tag (row_el cells) = "row"%string ∧
        Forall (λ e, rc_row e = Z.of_nat r ∧
                     ∃ cell, py_getitem row (rc_col e) = Done cell) cells ∧
        ((∀ c : nat, (c < length row)%nat →
            ∃ e, e ∈ concat (take r out) ∧ covers e (Z.of_nat r) (Z.of_nat c)) →
         row_el cells = mkElement "row" [] None []).
Proof.
  intros (out & Hres & ->)%process_table_Done.
  pose proof (resolve_table_length _ _ _ Hres) as Hlen.
  exists out. split; [done|]. split; [done|]. split; [done|].
  split; [by simpl; rewrite length_map|].
  intros r row Hrow.
  destruct (lookup_lt_is_Some_2 out r) as [cells Hcells].
  { apply lookup_lt_Some in Hrow. lia. }
  exists cells. split; [done|]. split.
  { simpl. change (map row_el out) with (row_el <$> out).
    by rewrite list_lookup_fmap, Hcells. }
  split; [done|].
  destruct (resolve_table_row _ _ _ _ _ Hres Hcells)
    as (fuel' & n_cols & row' & P & P' & -> & Hn & Hrow' & Hs & HP).
  assert (row' = row) as -> by congruence.
  split.
  - pose proof (scan_trace_emitted_from _ _ _ _ _ _ _ _ _ Hs) as Hfrom.
    eapply Forall_impl; [exact Hfrom|].
    intros e (Hr & cell & Hcell & _). eauto.
  - intros Hclaimed.
    assert (∀ j, 0 ≤ j < Z.of_nat (length row) → (Z.of_nat r, j) ∈ P) as HinP.
    { intros j Hj. apply HP.
      destruct (Hclaimed (Z.to_nat j)) as (e & He & Hcov); [lia|].
      rewrite Z2Nat.id in Hcov by lia. eauto. }
    by destruct (scan_trace_claimed _ _ _ _ _ _ _ _ _ HinP (Z.le_refl 0) Hs)
      as [-> _].
Qed.

Lemma one_row_per_input_row_witness :
  ∃ out,
    mkElement "document" [] None
      [mkElement "table" [] None
         [mkElement "row" [] None
            [mkElement "cell" [("rowspan", "3")]%string (Some "top"%string) []];
          mkElement "row" [] None [];
          mkElement "row" [] None []]]
      = SubElement document_root (table_el out) ∧
    length (children (table_el out)) = length column_table.
Proof.
  destruct (one_row_per_input_row 5 document_root column_table
              (mkElement "document" [] None
                 [mkElement "table" [] None
                    [mkElement "row" [] None
                       [mkElement "cell" [("rowspan", "3")]%string
                          (Some "top"%string) []];
                     mkElement "row" [] None [];
                     mkElement "row" [] None []]]))
    as (out & Hel & _ & _ & Hlen & _).
  - vm_compute. reflexivity.
  - exists out. split; [exact Hel|exact Hlen].
Defined.

(** ** More fuel changes nothing *)

Section Fuel.
Context (table : Table) (n_cols : Z).
Context (rec rec' : Table → outcome ResolvedTable).
Hypothesis Hrec : ∀ t, rec t ≠ Timeout → rec' t = rec t.

Lemma process_tables_mono ts :
  process_tables rec ts ≠ Timeout →
  process_tables rec' ts = process_tables rec ts.
Proof.
  induction ts as [|t ts IH]; simpl; [done|].
  destruct (rec t) as [x| |] eqn:Ht; simpl; [| |done].
  - rewrite Hrec, Ht by congruence. simpl.
    destruct (process_tables rec ts) as [xs| |]; simpl; [| |done].
    + intros _. by rewrite IH.
    + intros _. by rewrite IH.
  - intros _. by rewrite Hrec, Ht by congruence.
Qed.

Lemma scan_row_mono fuel fuel' r row c P acc :
  (fuel ≤ fuel')%nat →
  scan_row table n_cols rec fuel r row c P acc ≠ Timeout →
  scan_row table n_cols rec' fuel' r row c P acc
    = scan_row table n_cols rec fuel r row c P acc.
Proof.
  revert fuel' c P acc. induction fuel as [|fuel IH];
    intros fuel' c P acc Hle; simpl; [done|].
  destruct fuel' as [|fuel']; [lia|]. simpl.
  destruct (decide (c < n_cols)); [|done].
  destruct (decide ((r, c) ∈ P)).
  { apply IH. lia. }
  destruct (py_getitem row c) as [cell|[]|]; simpl; try done.
  destruct (rowspan_of table cell r c) as [rowspan| |]; simpl; try done.
  destruct (process_tables rec (tables cell)) as [nested| |] eqn:Hn; simpl.
  - rewrite process_tables_mono, Hn by congruence. simpl. apply IH. lia.
  - intros _. by rewrite process_tables_mono, Hn by congruence.
  - done.
Qed.

Lemma process_rows_mono fuel fuel' r rows P :
  (fuel ≤ fuel')%nat →
  process_rows table n_cols rec fuel r rows P ≠ Timeout →
  process_rows table n_cols rec' fuel' r rows P
    = process_rows table n_cols rec fuel r rows P.
Proof.
  intros Hle. revert r P. induction rows as [|row rows IH];
    intros r P; simpl; [done|].
  destruct (scan_row table n_cols rec fuel r row 0 P []) as [s| |] eqn:Hs;
    simpl.
  - rewrite (scan_row_mono fuel fuel'), Hs by (done || congruence). simpl.
    destruct (process_rows table n_cols rec fuel (r + 1) rows s.2)
      as [out| |] eqn:Hr; simpl.
    + intros _. by rewrite IH, Hr by congruence.
    + intros _. by rewrite IH, Hr by congruence.
    + done.
  - intros _. by rewrite (scan_row_mono fuel fuel'), Hs by (done || congruence).
  - done.
Qed.
End Fuel.

Lemma resolve_table_mono fuel fuel' (table : Table) :
  (fuel ≤ fuel')%nat →
  resolve_table fuel table ≠ Timeout →
  resolve_table fuel' table = resolve_table fuel table.
Proof.
  revert fuel' table. induction fuel as [|fuel IH];
    intros fuel' table Hle; simpl; [done|].
  destruct fuel' as [|fuel']; [lia|]. simpl.
  destruct (n_cols_of table) as [n_cols| |]; simpl; [|done..].
  apply process_rows_mono; [|lia].
  intros t. apply IH. lia.
Qed.

(** ** Termination *)

Lemma forallb_elem_of {A} (f : A → bool) (l : list A) (x : A) :
  forallb f l = true → x ∈ l → f x = true.
Proof.
  intros H Hx. apply list_elem_of_In in Hx.
  by apply (proj1 (forallb_forall f l) H).
Qed.

Lemma cell_fuel_unfold (x : RawCell) :
  cell_fuel x = max_list (map table_fuel (tables x)).
Proof. by destruct x. Qed.

Lemma cell_spans_ok_unfold (x : RawCell) :
  cell_spans_ok x = bool_decide (1 ≤ colspan_of x) && forallb spans_ok (tables x).
Proof. by destruct x. Qed.

Lemma table_fuel_nested (table nested : Table) row x :
  row ∈ table → x ∈ row → nested ∈ tables x →
  (table_fuel nested < table_fuel table)%nat.
Proof.
  intros Hrow Hx Hn.
  assert (table_fuel nested ≤ cell_fuel x)%nat as H1.
  { rewrite cell_fuel_unfold. apply max_list_elem_of_le.
    apply list_elem_of_fmap. by exists nested. }
  assert (cell_fuel x ≤ max_list (map cell_fuel row))%nat as H2.
  { apply max_list_elem_of_le. apply list_elem_of_fmap. by exists x. }
  assert (max_list (map cell_fuel row)
          ≤ max_list (map (λ row : Row, max_list (map cell_fuel row)) table))%nat
    as H3.
  { apply max_list_elem_of_le.
    apply (list_elem_of_fmap_2 (λ row : Row, max_list (map cell_fuel row))).
    done. }
  unfold table_fuel at 2. lia.
Qed.

Lemma py_max_Done_elem (xs : list Z) (m : Z) :
  py_max xs = Done m → m ∈ xs.
Proof.
  destruct xs as [|y ys]; [done|]. simpl. intros [= <-].
  assert (∀ (l : list Z) a, foldl Z.max a l = a ∨ foldl Z.max a l ∈ l) as H.
  { induction l as [|b l IH]; intros a; simpl; [by left|].
    destruct (IH (Z.max a b)) as [->|Hin].
    - destruct (Z.max_spec a b) as [[_ ->]|[_ ->]]; [right|by left].
      apply elem_of_cons. by left.
    - right. apply elem_of_cons. by right. }
  apply elem_of_cons. destruct (H ys y) as [->|?]; [by left|by right].
Qed.

Lemma n_cols_of_fuel (table : Table) n_cols :
  n_cols_of table = Done n_cols →
  (S (Z.to_nat n_cols) < table_fuel table)%nat.
Proof.
  intros (row & -> & Hrow)%py_max_Done_elem%list_elem_of_fmap.
  assert (length row ≤ max_list (map length table))%nat.
  { apply max_list_elem_of_le. apply list_elem_of_fmap. by exists row. }
  unfold table_fuel. lia.
Qed.

Section Termination.
Context (table : Table) (n_cols : Z).
Context (process_nested : Table → outcome ResolvedTable).

Lemma process_tables_terminates ts :
  (∀ t, t ∈ ts → process_nested t ≠ Timeout) →
  process_tables process_nested ts ≠ Timeout.
Proof.
  induction ts as [|t ts IH]; intros Hts; simpl; [done|].
  assert (process_nested t ≠ Timeout) as Ht.
  { apply Hts. apply elem_of_cons. by left. }
  destruct (process_nested t); simpl; [|done..].
  assert (process_tables process_nested ts ≠ Timeout) as Hrest.
  { apply IH. intros t' Ht'. apply Hts. apply elem_of_cons. by right. }
  by destruct (process_tables process_nested ts).
Qed.

(** Each iteration moves the column to the right, by 1 on a skip and by
    the span count on an emitted cell, so [n_cols - c] iterations and
    the final test are enough. *)
Lemma scan_row_terminates fuel r row c P acc :
  (∀ x, x ∈ row →
     1 ≤ colspan_of x ∧ process_tables process_nested (tables x) ≠ Timeout) →
  0 ≤ c → (Z.to_nat (n_cols - c) < fuel)%nat →
  scan_row table n_cols process_nested fuel r row c P acc ≠ Timeout.
Proof.
  intros Hrow. revert c P acc.
  induction fuel as [|fuel IH]; intros c P acc Hc Hfuel; [lia|]. simpl.
  destruct (decide (c < n_cols)); [|done].
  destruct (decide ((r, c) ∈ P)).
  { apply IH; lia. }
  destruct (py_getitem_cases row c) as [(cell & -> & Hin)| ->]; simpl; [|done].
  destruct (rowspan_of_Done table cell r c) as (rowspan & -> & _). simpl.
  destruct (Hrow cell Hin) as [Hspan Hnested].
  destruct (process_tables process_nested (tables cell)); simpl; [|done..].
  apply IH; lia.
Qed.

Lemma process_rows_terminates fuel r rows P :
  (∀ row x, row ∈ rows → x ∈ row →
     1 ≤ colspan_of x ∧ process_tables process_nested (tables x) ≠ Timeout) →
  (Z.to_nat n_cols < fuel)%nat →
  process_rows table n_cols process_nested fuel r rows P ≠ Timeout.
Proof.
  intros Hrows Hfuel. revert r P.
  induction rows as [|row rows IH]; intros r P; simpl; [done|].
  assert (scan_row table n_cols process_nested fuel r row 0 P [] ≠ Timeout)
    as Hs.
  { apply scan_row_terminates; [|lia|lia].
    intros x Hx. apply (Hrows row x); [|done]. apply elem_of_cons. by left. }
  destruct (scan_row _ _ _ fuel r row 0 P []) as [s| |]; simpl; [|done..].
  assert (process_rows table n_cols process_nested fuel (r + 1) rows s.2
          ≠ Timeout) as Hr.
  { apply IH. intros row' x Hrow' Hx. apply (Hrows row' x); [|done].
    apply elem_of_cons. by right. }
  by destruct (process_rows _ _ _ fuel (r + 1) rows s.2).
Qed.
End Termination.

Lemma scan_terminates_aux fuel (table : Table) :
  spans_ok table = true →
  (table_fuel table ≤ fuel)%nat →
  resolve_table fuel table ≠ Timeout.
Proof.
  revert table. induction fuel as [|fuel IH]; intros table Hok Hfuel.
  { unfold table_fuel in Hfuel. lia. }
  simpl. destruct (n_cols_of table) as [n_cols|e|] eqn:Hn; simpl; [|done|].
  2:{ unfold n_cols_of, py_max in Hn. by destruct (_ <$> table). }
  pose proof (n_cols_of_fuel _ _ Hn) as Hcols.
  apply process_rows_terminates; [|lia].
  intros row x Hrow Hx.
  pose proof (forallb_elem_of _ _ _ (forallb_elem_of _ _ _ Hok Hrow) Hx) as Hxok.
  rewrite cell_spans_ok_unfold in Hxok.
  apply andb_prop in Hxok as [Hspan Hnested].
  split; [by apply bool_decide_eq_true_1 in Hspan|].
  apply process_tables_terminates. intros t Ht. apply IH.
  - by apply (forallb_elem_of _ _ _ Hnested).
  - pose proof (table_fuel_nested table t row x Hrow Hx Ht). lia.
Qed.

(** C10. When every span count of a table, nested tables included, is at
    least 1, every row scan comes to an end: each iteration moves the
    column to the right, so with [table_fuel table] units of fuel or more
    the resolution returns or raises, it does not run out of fuel, and
    what it ends with no longer depends on the fuel. *)
Theorem scan_terminates fuel (table : Table) :
  spans_ok table = true →
  (table_fuel table ≤ fuel)%nat →
  resolve_table fuel table ≠ Timeout ∧
  resolve_table fuel table = resolve_table (table_fuel table) table.
Proof.
  intros Hok Hfuel. split.
  - by apply scan_terminates_aux.
  - apply resolve_table_mono; [done|].
    by apply scan_terminates_aux.
Qed.

Lemma scan_terminates_witness :
  resolve_table 7 block_table ≠ Timeout ∧
  resolve_table 7 block_table = resolve_table (table_fuel block_table) block_table.
Proof.
  apply scan_terminates.
  - reflexivity.
  - vm_compute. lia.
Defined.

(** Without the bound on the span counts the scan need not end: a span
    count of 0 leaves the column where it is. *)
Lemma zero_span_never_returns fuel :
  resolve_table fuel zero_span_table = Timeout.
Proof.
  destruct fuel as [|fuel]; [done|]. simpl.
  assert (∀ rec f P acc,
    (0, 0) ∉ P →
    scan_row zero_span_table 1 rec f 0 [span_cell 0 "A"] 0 P acc = Timeout)
    as H.
  { intros rec f. induction f as [|f IH]; intros P acc HP; [done|].
    simpl. rewrite decide_False by done. apply IH.
    intros Hin. apply elem_of_mark_span in Hin as [?|[_ Hj]]; [done|].
    change (colspan_of (span_cell 0 "A")) with 0 in Hj. lia. }
  unfold n_cols_of. simpl.
  rewrite H; [done|]. apply not_elem_of_empty.
Qed.

(** ** Exceptions *)

Section NoRaise.
Context (table : Table) (n_cols : Z).
Context (process_nested : Table → outcome ResolvedTable).
Context (e : exn).

Lemma process_tables_no_raise ts :
  (∀ t, t ∈ ts → process_nested t ≠ Raise e) →
  process_tables process_nested ts ≠ Raise e.
Proof.
  induction ts as [|t ts IH]; intros Hts; simpl; [done|].
  assert (process_nested t ≠ Raise e) as Ht.
  { apply Hts. apply elem_of_cons. by left. }
  destruct (process_nested t); simpl; [|by intros [= ->]|done].
  assert (process_tables process_nested ts ≠ Raise e) as Hrest.
  { apply IH. intros t' Ht'. apply Hts. apply elem_of_cons. by right. }
  by destruct (process_tables process_nested ts).
Qed.

(** The only exception of the loop body itself is the [IndexError] of
    [row.cells[c]], and the loop catches it. *)
Lemma scan_row_no_raise fuel r row c P acc :
  (∀ x, x ∈ row → process_tables process_nested (tables x) ≠ Raise e) →
  scan_row table n_cols process_nested fuel r row c P acc ≠ Raise e.
Proof.
  intros Hrow. revert c P acc.
  induction fuel as [|fuel IH]; intros c P acc; [done|]. simpl.
  destruct (decide (c < n_cols)); [|done].
  destruct (decide ((r, c) ∈ P)); [apply IH|].
  destruct (py_getitem_cases row c) as [(cell & -> & Hin)| ->]; simpl; [|done].
  destruct (rowspan_of_Done table cell r c) as (rowspan & -> & _). simpl.
  pose proof (Hrow cell Hin) as Hnested.
  destruct (process_tables process_nested (tables cell)); simpl;
    [|by intros [= ->]|done].
  apply IH.
Qed.

Lemma process_rows_no_raise fuel r rows P :
  (∀ row x, row ∈ rows → x ∈ row →
     process_tables process_nested (tables x) ≠ Raise e) →
  process_rows table n_cols process_nested fuel r rows P ≠ Raise e.
Proof.
  intros Hrows. revert r P.
  induction rows as [|row rows IH]; intros r P; simpl; [done|].
  assert (scan_row table n_cols process_nested fuel r row 0 P [] ≠ Raise e)
    as Hs.
  { apply scan_row_no_raise.
    intros x Hx. apply (Hrows row x); [|done]. apply elem_of_cons. by left. }
  destruct (scan_row _ _ _ fuel r row 0 P []) as [s| |]; simpl;
    [|by intros [= ->]|done].
  assert (process_rows table n_cols process_nested fuel (r + 1) rows s.2
          ≠ Raise e) as Hr.
  { apply IH. intros row' x Hrow' Hx. apply (Hrows row' x); [|done].
    apply elem_of_cons. by right. }
  by destruct (process_rows _ _ _ fuel (r + 1) rows s.2).
Qed.
End NoRaise.

Lemma resolve_table_no_IndexError fuel (table : Table) :
  resolve_table fuel table ≠ Raise IndexError.
Proof.
  revert table. induction fuel as [|fuel IH]; intros table; [done|]. simpl.
  unfold n_cols_of, py_max. destruct (_ <$> table); simpl; [done|].
  apply process_rows_no_raise. intros row x _ _.
  apply process_tables_no_raise. intros t _. apply IH.
Qed.

Lemma cell_has_rows_unfold (x : RawCell) :
  cell_has_rows x = forallb has_rows (tables x).
Proof. by destruct x. Qed.

Lemma resolve_table_no_ValueError fuel (table : Table) :
  has_rows table = true →
  resolve_table fuel table ≠ Raise ValueError.
Proof.
  revert table. induction fuel as [|fuel IH]; intros table Hok; [done|]. simpl.
  apply andb_prop in Hok as [Hne Hcells].
  assert (∃ n, n_cols_of table = Done n) as [n ->].
  { unfold n_cols_of, py_max. destruct table; [done|]. simpl. eauto. }
  cbn [bind].
  apply process_rows_no_raise. intros row x Hrow Hx.
  pose proof (forallb_elem_of _ _ _ (forallb_elem_of _ _ _ Hcells Hrow) Hx)
    as Hxok.
  rewrite cell_has_rows_unfold in Hxok.
  apply process_tables_no_raise. intros t Ht. apply IH.
  by apply (forallb_elem_of _ _ _ Hxok).
Qed.

(** A table with rows and span counts of at least 1, nested tables
    included, is resolved: the call returns, with one row per input row. *)
Lemma resolve_table_total (table : Table) :
  has_rows table = true → spans_ok table = true →
  ∃ out, resolve_table (table_fuel table) table = Done out ∧
         length out = length table.
Proof.
  intros Hrows Hspans.
  pose proof (resolve_table_no_ValueError (table_fuel table) table Hrows) as H1.
  pose proof (resolve_table_no_IndexError (table_fuel table) table) as H2.
  pose proof (scan_terminates_aux (table_fuel table) table Hspans
                (Nat.le_refl _)) as H3.
  destruct (resolve_table (table_fuel table) table) as [out|[]|] eqn:Hres;
    try done.
  exists out. split; [done|]. by eapply resolve_table_length.
Qed.



(** A table without rows is another matter: [max()] of no row lengths
    raises [ValueError]. *)
Lemma empty_table_raises fuel :
  resolve_table (S fuel) [] = Raise ValueError.
Proof. reflexivity. Qed.

(** The ragged scenario of the specification: the second row stops after
    column 0, the third row is resolved in full. *)
Example ragged_table_resolved :
  resolve_table 5 ragged_table
    = Done [ [mkResolvedCell 0 0 1 1 "a" []; mkResolvedCell 0 1 1 1 "b" [];
              mkResolvedCell 0 2 1 1 "c" []];
             [mkResolvedCell 1 0 1 1 "d" []];
             [mkResolvedCell 2 0 1 1 "e" []; mkResolvedCell 2 1 1 1 "f" [];
              mkResolvedCell 2 2 1 1 "g" []] ].
Proof. vm_compute. reflexivity. Qed.

(** The two merge scenarios of the specification. *)
Example wide_table_resolved :
  resolve_table 5 wide_table
    = Done [ [mkResolvedCell 0 0 1 2 "A" []];
             [mkResolvedCell 1 0 1 1 "b" []; mkResolvedCell 1 1 1 1 "c" []] ].
Proof. vm_compute. reflexivity. Qed.

Example column_table_resolved :
  resolve_table 5 column_table
    = Done [ [mkResolvedCell 0 0 3 1 "top" []]; []; [] ].
Proof. vm_compute. reflexivity. Qed.

(** ** Nested tables *)

Lemma process_tables_Forall2 (process_nested : Table → outcome ResolvedTable)
    (ts : list Table) results :
  process_tables process_nested ts = Done results →
  Forall2 (λ t res, process_nested t = Done res) ts results.
Proof.
  revert results. induction ts as [|t ts IH]; intros results; simpl.
  - intros [= <-]. constructor.
  - destruct (process_nested t) as [x| |] eqn:Ht; simpl; [|done..].
    destruct (process_tables process_nested ts) as [xs| |]; simpl; [|done..].
    intros [= <-]. constructor; [done|]. by apply IH.
Qed.

Lemma table_cell_strip (table : Table) (i c : Z) :
  table_cell (strip_table table) i c =
    match table_cell table i c with
    | Done x => Done (strip_cell x)
    | Raise e => Raise e
    | Timeout => Timeout
    end.
Proof.
  unfold table_cell, strip_table.
  change (map (map strip_cell) table) with (fmap (M:=list) (map strip_cell) table).
  rewrite py_getitem_fmap.
  destruct (py_getitem table i) as [row| |]; simpl; [|done..].
  apply (py_getitem_fmap strip_cell).
Qed.

Lemma rowspan_loop_strip (table : Table) todo c rowspan :
  rowspan_loop (strip_table table) todo c rowspan
    = rowspan_loop table todo c rowspan.
Proof.
  revert rowspan. induction todo as [|i todo IH]; intros rowspan; simpl; [done|].
  rewrite table_cell_strip.
  destruct (table_cell table i c) as [x|[]|]; simpl; try done.
  change (is_continuation (strip_cell x)) with (is_continuation x).
  by rewrite IH.
Qed.

Lemma rowspan_of_strip (table : Table) cell r c :
  rowspan_of (strip_table table) (strip_cell cell) r c
    = rowspan_of table cell r c.
Proof.
  unfold rowspan_of.
  change (is_restart (strip_cell cell)) with (is_restart cell).
  unfold strip_table at 2. rewrite length_map.
  by rewrite rowspan_loop_strip.
Qed.

Lemma n_cols_of_strip (table : Table) :
  n_cols_of (strip_table table) = n_cols_of table.
Proof.
  unfold n_cols_of, strip_table. f_equal.
  change (map (map strip_cell) table) with (fmap (M:=list) (map strip_cell) table).
  rewrite <- list_fmap_compose. apply list_fmap_ext.
  intros _ row _. simpl. by rewrite length_map.
Qed.

Section Strip.
Context (table : Table) (n_cols : Z).
Context (rec rec' : Table → outcome ResolvedTable).

(** The scan of the row without nested tables emits the same cells,
    minus their nested results, and leaves the same processed set. *)
Lemma scan_row_strip fuel r row c P acc cells P' :
  scan_row table n_cols rec fuel r row c P acc = Done (cells, P') →
  scan_row (strip_table table) n_cols rec' fuel r (map strip_cell row) c P
    (map forget_nested acc)
  = Done (map forget_nested cells, P').
Proof.
  revert c P acc. induction fuel as [|fuel IH]; intros c P acc; simpl; [done|].
  destruct (decide (c < n_cols)); [|by intros [= <- <-]].
  destruct (decide ((r, c) ∈ P)); [apply IH|].
  change (map strip_cell row) with (strip_cell <$> row).
  rewrite py_getitem_fmap.
  destruct (py_getitem row c) as [cell|[]|]; simpl; try done.
  - rewrite rowspan_of_strip.
    destruct (rowspan_of table cell r c) as [rowspan| |]; simpl; [|done..].
    destruct (process_tables rec (tables cell)) as [nested| |]; simpl;
      [|done..].
    intros Hs. apply IH in Hs. rewrite map_app in Hs. exact Hs.
  - by intros [= <- <-].
Qed.

Lemma process_rows_strip fuel r rows P out :
  process_rows table n_cols rec fuel r rows P = Done out →
  process_rows (strip_table table) n_cols rec' fuel r
    (map (map strip_cell) rows) P
  = Done (map (map forget_nested) out).
Proof.
  revert r P out. induction rows as [|row rows IH]; intros r P out; simpl.
  - by intros [= <-].
  - destruct (scan_row table n_cols rec fuel r row 0 P [])
      as [[cells P']| |] eqn:Hs; simpl; [|done..].
    apply scan_row_strip in Hs. simpl in Hs. rewrite Hs. simpl.
    destruct (process_rows table n_cols rec fuel (r + 1) rows P')
      as [out'| |] eqn:Hr; simpl; [|done..].
    apply IH in Hr. rewrite Hr. simpl. by intros [= <-].
Qed.

(** Two scans of a row from the same column and processed set, with
    whatever results for the nested tables, emit cells at the same
    coordinates with the same spans and leave the same processed set. *)
Lemma scan_trace_frame r row c P new1 P1 :
  scan_trace table n_cols rec r row c P new1 P1 →
  ∀ new2 P2,
    scan_trace table n_cols rec' r row c P new2 P2 →
    P1 = P2 ∧ map forget_nested new1 = map forget_nested new2.
Proof.
  induction 1 as [c P Hc|c P new P' Hc HP Ht IH|c P Hc HP Hrow
                 |c P cell rowspan nested new P' Hc HP Hcell Hrs Hn Ht IH];
    intros new2 P2 Ht2; inversion Ht2; subst; try done; try congruence.
  - by apply IH.
  - assert (cell0 = cell) as -> by congruence.
    assert (rowspan0 = rowspan) as -> by congruence.
    match goal with H : scan_trace _ _ _ _ _ _ _ _ _ |- _ =>
      destruct (IH _ _ H) as [-> Heq] end.
    split; [done|]. simpl. unfold forget_nested at 1 3. simpl. by rewrite Heq.
Qed.
End Strip.

(** C6. The nested tables of a cell are resolved apart from the table
    that holds them: each is resolved by a call of its own, which starts
    from an empty processed set and sees nothing but the nested table;
    taking the nested tables out of the input changes no coordinate, no
    rowspan and no colspan of the cells emitted for the parent; and
    whatever the nested calls return, the scan of a parent row leaves the
    same processed set. *)
Theorem nested_tables_resolve_independently fuel (table : Table) out :
  resolve_table fuel table = Done out →
  resolve_table fuel (strip_table table)
    = Done (map (map forget_nested) out) ∧
  (∀ (r : nat) cells e,
     out !! r = Some cells → e ∈ cells →
     ∃ row cell,
       table !! r = Some row ∧
       py_getitem row (rc_col e) = Done cell ∧
       Forall2 (λ nested res, resolve_table (pred fuel) nested = Done res)
         (tables cell) (rc_tables e)) ∧
  (∀ n_cols rec rec' r row c P new1 P1 new2 P2,
     scan_trace table n_cols rec r row c P new1 P1 →
     scan_trace table n_cols rec' r row c P new2 P2 →
     P1 = P2 ∧ map forget_nested new1 = map forget_nested new2).
Proof.
  intros Hres. split; [|split].
  - destruct fuel as [|fuel]; [done|]. simpl in *.
    rewrite n_cols_of_strip.
    destruct (n_cols_of table) as [n_cols| |]; simpl in *; [|done..].
    by apply (process_rows_strip table n_cols (resolve_table fuel)).
  - intros r cells e Hcells He.
    destruct (resolve_table_row _ _ _ _ _ Hres Hcells)
      as (fuel' & n_cols & row & P & P' & -> & Hn & Hrow & Hs & _).
    apply scan_trace_emitted_from in Hs. rewrite Forall_forall in Hs.
    destruct (Hs e He) as (_ & cell & Hcell & _ & _ & _ & Hnested).
    exists row, cell. split; [done|]. split; [done|].
    by apply process_tables_Forall2.
  - intros n_cols rec rec' r row c P new1 P1 new2 P2 H1 H2.
    by eapply scan_trace_frame.
Qed.

Lemma nested_tables_resolve_independently_witness :
  resolve_table 6 (strip_table nesting_table)
    = Done [ [mkResolvedCell 0 0 2 1 "v" []; mkResolvedCell 0 1 1 2 "outer" []];
             [mkResolvedCell 1 1 1 1 "p" []; mkResolvedCell 1 2 1 1 "q" []] ].
Proof.
  apply (nested_tables_resolve_independently 6 nesting_table nesting_resolved).
  vm_compute. reflexivity.
Defined.

(** ** Cells in the element tree *)

Lemma cell_el_unfold (e : ResolvedCell) :
  cell_el e =
    mkElement "cell" (span_attrib (rc_rowspan e) (rc_colspan e))
      (Some (rc_text e)) (map table_el (rc_tables e)).
Proof. by destruct e. Qed.

Lemma span_attrib_rowspan (rowspan colspan : Z) (v : string) :
  ("rowspan"%string, v) ∈ span_attrib rowspan colspan ↔
  rowspan > 1 ∧ v = pretty rowspan.
Proof.
  unfold span_attrib. rewrite elem_of_app.
  destruct (decide (rowspan > 1)), (decide (colspan > 1));
    rewrite ?elem_of_cons, ?elem_of_nil; split;
    try (intros [[[= ->]|[]]|[[=]|[]]]; done);
    try (intros [[[= ->]|[]]|[]]; done);
    try (intros [[]|[[=]|[]]]; done);
    try (intros [[]|[]]; done);
    try (intros [? ->]; by (left; left) || lia).
Qed.

Lemma span_attrib_colspan (rowspan colspan : Z) (v : string) :
  ("colspan"%string, v) ∈ span_attrib rowspan colspan ↔
  colspan > 1 ∧ v = pretty colspan.
Proof.
  unfold span_attrib. rewrite elem_of_app.
  destruct (decide (rowspan > 1)), (decide (colspan > 1));
    rewrite ?elem_of_cons, ?elem_of_nil; split;
    try (intros [[[=]|[]]|[[= ->]|[]]]; done);
    try (intros [[[=]|[]]|[]]; done);
    try (intros [[]|[[= ->]|[]]]; done);
    try (intros [[]|[]]; done);
    try (intros [? ->]; by (right; left) || lia).
Qed.

(** The element tree of [nesting_table]: spans above 1 become attributes,
    the nested table is a child of its cell. *)
Example nesting_table_tree :
  process_table 6 document_root nesting_table
    = Done (mkElement "document" [] None
        [mkElement "table" [] None
           [mkElement "row" [] None
              [mkElement "cell" [("rowspan", "2")]%string (Some "v"%string) [];
               mkElement "cell" [("colspan", "2")]%string (Some "outer"%string)
                 [mkElement "table" [] None
                    [mkElement "row" [] None
                       [mkElement "cell" [("colspan", "2")]%string
                          (Some "A"%string) []];
                     mkElement "row" [] None
                       [mkElement "cell" [] (Some "b"%string) [];
                        mkElement "cell" [] (Some "c"%string) []]]]];
            mkElement "row" [] None
              [mkElement "cell" [] (Some "p"%string) [];
               mkElement "cell" [] (Some "q"%string) []]]]).
Proof. vm_compute. reflexivity. Qed.

(** * Tables as python-docx hands them over *)

(** ["\n".join] as the Standard Library has it. *)
Lemma py_join_concat (sep : string) (ss : list string) :
  py_join sep ss = String.concat sep ss.
Proof.
  induction ss as [|s ss IH]; [done|].
  destruct ss as [|s' ss]; [done|].
  cbn [py_join String.concat]. cbn [py_join String.concat] in IH.
  by rewrite IH.
Qed.

Lemma cell_received_unfold (x : RawCell) :
  cell_received x =
    negb (is_continuation x) && bool_decide (1 ≤ colspan_of x) &&
    forallb received (tables x).
Proof. by destruct x. Qed.

Lemma received_cell (table : Table) row x :
  received table = true → row ∈ table → x ∈ row →
  is_continuation x = false ∧ 1 ≤ colspan_of x ∧
  forallb received (tables x) = true.
Proof.
  intros Hrec Hrow Hx.
  pose proof (forallb_elem_of _ _ _ (forallb_elem_of _ _ _ Hrec Hrow) Hx) as H.
  rewrite cell_received_unfold in H.
  apply andb_prop in H as [[Hc Hs]%andb_prop Hn].
  split; [by apply negb_true_iff|].
  split; [by apply bool_decide_eq_true_1 in Hs|done].
Qed.

Lemma received_spans_ok (table : Table) :
  received table = true → spans_ok table = true.
Proof.
  remember (table_fuel table) as n eqn:Hn.
  assert (table_fuel table ≤ n)%nat as Hle by lia. clear Hn.
  revert table Hle. induction n as [|n IH]; intros table Hle Hrec.
  { unfold table_fuel in Hle. lia. }
  apply forallb_forall. intros row Hrow. apply list_elem_of_In in Hrow.
  apply forallb_forall. intros x Hx. apply list_elem_of_In in Hx.
  destruct (received_cell table row x Hrec Hrow Hx) as (_ & Hspan & Hnested).
  rewrite cell_spans_ok_unfold. apply andb_true_intro.
  split; [by apply bool_decide_eq_true_2|].
  apply forallb_forall. intros t Ht. apply list_elem_of_In in Ht.
  apply IH.
  - pose proof (table_fuel_nested table t row x Hrow Hx Ht). lia.
  - by apply (forallb_elem_of _ _ _ Hnested).
Qed.

Lemma received_no_continuation (table : Table) i j :
  received table = true → ¬ continuation_at table i j.
Proof.
  intros Hrec (row & Hrow & Hcont). unfold has_continuation in Hcont.
  destruct (py_getitem_cases row j) as [(x & Hx & Hin)|Hx];
    rewrite Hx in Hcont; [|done].
  apply list_elem_of_lookup_2 in Hrow.
  destruct (received_cell table row x Hrec Hrow Hin) as (Hno & _).
  congruence.
Qed.

Lemma received_continuation_run (table : Table) (k : nat) (c : Z) :
  received table = true → continuation_run (drop k table) c = 0.
Proof.
  intros Hrec. destruct (drop k table) as [|row below] eqn:Hdrop; [done|].
  simpl. destruct (has_continuation row c) eqn:Hcont; [|done].
  destruct (received_no_continuation table (Z.of_nat k) c Hrec).
  exists row. split; [|done]. rewrite Nat2Z.id.
  rewrite <- (Nat.add_0_r k), <- lookup_drop. by rewrite Hdrop.
Qed.

(** C1. For every table python-docx hands over, the rectangles of the
    emitted cells tile the grid: whenever the resolution returns, each
    coordinate [(r, c)] of the [rowCount × columnCount] grid is claimed
    by the rectangle of exactly one emitted cell or lies beyond the end
    of its ragged row, and no two rectangles overlap. The resolution does
    return when no table, nested ones included, is without rows. *)
Theorem received_grid_is_tiled (table : Table) :
  received table = true →
  (∀ fuel out, resolve_table fuel table = Done out → tiles table out) ∧
  (has_rows table = true →
   ∀ fuel, (table_fuel table ≤ fuel)%nat →
           ∃ out, resolve_table fuel table = Done out).
Proof.
  intros Hrec. split.
  - intros fuel out Hres.
    destruct (spans_tile_grid fuel table out) as [Hcov Hdis]; [|done|].
    { apply Forall_forall. intros row Hrow. apply Forall_forall.
      intros x Hx. by destruct (received_cell table row x Hrec Hrow Hx)
        as (_ & ? & _). }
    assert (disjoint_spans (concat out)) as Hdisjoint.
    { apply Hdis. apply Forall_forall. intros e _ j _.
      by apply received_no_continuation. }
    split; [|done].
    intros n_cols r c row Hn Hr Hrow Hc.
    destruct (decide (Z.of_nat (length row) ≤ c)) as [?|Hin]; [by left|].
    right.
    destruct (Hcov (Z.to_nat r) (Z.to_nat c) row Hrow) as (k & e & Hk & Hcv);
      [lia|].
    rewrite !Z2Nat.id in Hcv by lia.
    exists k, e. split; [done|]. split; [done|].
    intros k' e' Hk' Hcv'. by apply (Hdisjoint k' k e' e r c).
  - intros Hrows fuel Hfuel.
    destruct (resolve_table_total table Hrows (received_spans_ok table Hrec))
      as (out & Hres & _).
    exists out. rewrite <- Hres. apply resolve_table_mono; [done|].
    by rewrite Hres.
Qed.

Lemma received_grid_is_tiled_witness :
  ∃ out, resolve_table 6 received_block_table = Done out ∧
         tiles received_block_table out.
Proof.
  destruct (received_grid_is_tiled received_block_table) as [Htiles Hreturns];
    [reflexivity|].
  destruct (Hreturns eq_refl 6%nat) as [out Hout]; [vm_compute; lia|].
  exists out. split; [exact Hout|]. exact (Htiles 6%nat out Hout).
Defined.

(** What [received_block_table] resolves to: the start cell of the block
    is emitted in both rows, each time over two columns and one row. *)
Example received_block_table_resolved :
  resolve_table 6 received_block_table
    = Done [ [mkResolvedCell 0 0 1 2 "M" []; mkResolvedCell 0 2 1 1 "a" []];
             [mkResolvedCell 1 0 1 2 "M" []; mkResolvedCell 1 2 1 1 "b" []] ].
Proof. vm_compute. reflexivity. Qed.

(** C2. For the tables python-docx hands over the rowspan loop never
    counts: whichever cell of the table [table.cell] returns for a row
    below a start, it is no continuation, so every emitted cell has
    rowspan 1, the starts of vertical merges included, and the cell
    python-docx puts in the place of a continuation is emitted again in
    its own row, with its text. *)
Theorem vertical_merge_not_counted fuel (table : Table) out :
  received table = true →
  resolve_table fuel table = Done out →
  ∀ (r : nat) cells e,
    out !! r = Some cells → e ∈ cells →
    rc_rowspan e = 1 ∧
    ∃ row cell,
      table !! r = Some row ∧
      py_getitem row (rc_col e) = Done cell ∧
      rc_text e = String.concat newline (paragraphs cell).
Proof.
  intros Hrec Hres r cells e Hcells He.
  destruct (resolve_table_row _ _ _ _ _ Hres Hcells)
    as (fuel' & n_cols & row & P & P' & -> & Hn & Hrow & Hs & _).
  apply scan_trace_emitted_from in Hs. rewrite Forall_forall in Hs.
  destruct (Hs e He) as (Hr & cell & Hcell & _ & Hrs & Htext & _).
  rewrite rowspan_of_spec in Hrs by lia.
  rewrite received_continuation_run in Hrs by done.
  split; [destruct (is_restart cell); by injection Hrs|].
  exists row, cell. by rewrite <- py_join_concat.
Qed.

Lemma vertical_merge_not_counted_witness :
  resolve_table 5 received_column_table
    = Done [ [mkResolvedCell 0 0 1 1 "top" []];
             [mkResolvedCell 1 0 1 1 "top" []];
             [mkResolvedCell 2 0 1 1 "top" []] ] ∧
  rc_rowspan (mkResolvedCell 0 0 1 1 "top" []) = 1 ∧
  ∃ row cell,
    received_column_table !! 0%nat = Some row ∧
    py_getitem row 0 = Done cell ∧
    "top"%string = String.concat newline (paragraphs cell).
Proof.
  split; [vm_compute; reflexivity|].
  apply (vertical_merge_not_counted 5 received_column_table
           [ [mkResolvedCell 0 0 1 1 "top" []];
             [mkResolvedCell 1 0 1 1 "top" []];
             [mkResolvedCell 2 0 1 1 "top" []] ]
           eq_refl eq_refl 0 [mkResolvedCell 0 0 1 1 "top" []]
           (mkResolvedCell 0 0 1 1 "top" []) eq_refl).
  apply elem_of_cons. by left.
Defined.

(** * One cell per scanned cell *)

Section EmitOne.
Context (table : Table) (n_cols : Z).
Context (process_nested : Table → outcome ResolvedTable).

Local Abbreviation scan_row := (scan_row table n_cols process_nested).

Lemma scan_row_returns fuel r row c P acc :
  (∀ x, x ∈ row →
     1 ≤ colspan_of x ∧
     ∃ nested, process_tables process_nested (tables x) = Done nested) →
  0 ≤ c → (Z.to_nat (n_cols - c) < fuel)%nat →
  ∃ cells P', scan_row fuel r row c P acc = Done (cells, P').
Proof.
  intros Hrow Hc Hfuel.
  assert (scan_row fuel r row c P acc ≠ Timeout) as Hend.
  { apply scan_row_terminates; [|done..].
    intros x Hx. destruct (Hrow x Hx) as [Hspan [nested Hn]].
    split; [done|]. by rewrite Hn. }
  assert (∀ e, scan_row fuel r row c P acc ≠ Raise e) as Hraise.
  { intros e. apply scan_row_no_raise.
    intros x Hx. destruct (Hrow x Hx) as [_ [nested Hn]]. by rewrite Hn. }
  destruct (scan_row fuel r row c P acc) as [[cells P']|e|]; [by eauto| |done].
  by destruct (Hraise e).
Qed.

(** C3. The scan of a row, come to a coordinate [(r, c)] that is not yet
    processed and holds a cell, returns with exactly one cell emitted for
    it: the cell follows those emitted before, has for colspan the span
    count [n] of the source cell (1 when it has none), and every cell
    emitted after it in the row sits at column [c + n] or further to the
    right, for the scan goes on from column [c + n]; the coordinates
    [c .. c + n - 1] of the row are processed when the scan returns. The
    span counts of the row are at least 1 and its nested tables resolve. *)
Theorem colspan_claims_following fuel r row c P acc cell :
  0 ≤ c < n_cols → (r, c) ∉ P →
  py_getitem row c = Done cell →
  (∀ x, x ∈ row →
     1 ≤ colspan_of x ∧
     ∃ nested, process_tables process_nested (tables x) = Done nested) →
  (Z.to_nat (n_cols - c) < fuel)%nat →
  ∃ rowspan nested later P',
    let n := colspan_of cell in
    let e := mkResolvedCell r c rowspan n
               (String.concat newline (paragraphs cell)) nested in
    n = default 1 (gridSpan cell) ∧
    scan_row fuel r row c P acc = Done (acc ++ e :: later, P') ∧
    scan_row fuel r row c P acc
      = scan_row (pred fuel) r row (c + n) (mark_span r c rowspan n P)
          (acc ++ [e]) ∧
    (∀ e', e' ∈ later → c + n ≤ rc_col e') ∧
    (∀ j, c ≤ j < c + n → (r, j) ∈ P').
Proof.
  intros Hc HP Hcell Hrow Hfuel.
  destruct fuel as [|fuel]; [lia|].
  assert (cell ∈ row) as Hin.
  { destruct (py_getitem_cases row c) as [(x & Hx & Hxin)|Hx]; congruence. }
  destruct (Hrow cell Hin) as [Hspan [nested Hnested]].
  destruct (rowspan_of_Done table cell r c) as (rowspan & Hrs & Hrs1).
  pose proof (scan_row_emit_step table n_cols process_nested fuel r row c P acc
                cell rowspan nested ltac:(lia) HP Hcell Hrs Hnested) as Hstep.
  destruct (scan_row_returns fuel r row (c + colspan_of cell)
              (mark_span r c rowspan (colspan_of cell) P)
              (acc ++ [mkResolvedCell r c rowspan (colspan_of cell)
                         (py_join newline (paragraphs cell)) nested]))
    as (cells & P' & Hrest); [done|lia|lia|].
  pose proof Hrest as (later & -> & Ht)%scan_row_trace.
  exists rowspan, nested, later, P'. cbn zeta. rewrite <- py_join_concat.
  split; [unfold colspan_of; by destruct (gridSpan cell)|].
  split; [by rewrite Hstep, Hrest, <- app_assoc|].
  split; [done|]. split.
  - intros e' [k Hk]%list_elem_of_lookup_1.
    assert (∀ x, x ∈ row → 1 ≤ colspan_of x) as Hspans
      by (intros x Hx; by destruct (Hrow x Hx)).
    assert (0 ≤ c + colspan_of cell) as Hc0 by lia.
    destruct (scan_trace_ordered table n_cols process_nested r row _ _ _ _
                Hspans Hc0 Ht k e' Hk) as (? & _). lia.
  - intros j Hj.
    apply (scan_trace_processed table n_cols process_nested _ _ _ _ _ _ Ht).
    left. apply elem_of_mark_span. right. lia.
Qed.
End EmitOne.

Lemma colspan_claims_following_witness :
  ∃ rowspan nested later P',
    2 = default 1 (gridSpan (span_cell 2 "A")) ∧
    scan_row received_wide_table 2 (resolve_table 3) 4 0
      [span_cell 2 "A"; span_cell 2 "A"] 0 ∅ []
      = Done ([] ++ mkResolvedCell 0 0 rowspan 2 "A" nested :: later, P') ∧
    scan_row received_wide_table 2 (resolve_table 3) 4 0
      [span_cell 2 "A"; span_cell 2 "A"] 0 ∅ []
      = scan_row received_wide_table 2 (resolve_table 3) 3 0
          [span_cell 2 "A"; span_cell 2 "A"] (0 + 2)
          (mark_span 0 0 rowspan 2 ∅)
          ([] ++ [mkResolvedCell 0 0 rowspan 2 "A" nested]) ∧
    (∀ e', e' ∈ later → 0 + 2 ≤ rc_col e') ∧
    (∀ j, 0 ≤ j < 0 + 2 → (0, j) ∈ P').
Proof.
  apply (colspan_claims_following received_wide_table 2 (resolve_table 3) 4 0
           [span_cell 2 "A"; span_cell 2 "A"] 0 ∅ [] (span_cell 2 "A")).
  - lia.
  - apply not_elem_of_empty.
  - reflexivity.
  - intros x Hx. split.
    + apply elem_of_cons in Hx as [->|Hx];
        [|apply elem_of_cons in Hx as [->|Hx]; [|by apply elem_of_nil in Hx]];
        vm_compute; discriminate.
    + exists [].
      apply elem_of_cons in Hx as [->|Hx];
        [|apply elem_of_cons in Hx as [->|Hx]; [|by apply elem_of_nil in Hx]];
        reflexivity.
  - vm_compute. lia.
Defined.

(** The row of the witness: one cell for the two coordinates. *)
Example received_wide_table_resolved :
  resolve_table 5 received_wide_table
    = Done [ [mkResolvedCell 0 0 1 2 "A" []];
             [mkResolvedCell 1 0 1 1 "b" []; mkResolvedCell 1 1 1 1 "c" []] ].
Proof. vm_compute. reflexivity. Qed.

(** * A malformed grid that raises *)


(** * A cell in the element tree *)

(** C8. [process_table] appends to the parent one [table] element; in it
    the [k]-th cell emitted for row [r] is the [k]-th child of the [r]-th
    child, a [row] element; that child is a [cell] element whose
    attributes are [rowspan], with the decimal value, when the rowspan is
    greater than 1, and after it [colspan] when the colspan is greater
    than 1, and no other; its text is the texts of the paragraphs of the
    source cell with a newline between each two; and its children are,
    in order, one [table] element for each table nested in the source
    cell, the element [process_table] builds for that table. *)
Theorem cell_element_shape fuel parent_el (table : Table) el :
  process_table fuel parent_el table = Done el →
  ∃ out table_elem,
    resolve_table fuel table = Done out ∧
    el = mkElement (tag parent_el) (attrib parent_el) (text parent_el)
           (children parent_el ++ [table_elem]) ∧
    tag table_elem = "table"%string ∧
    ∀ (r k : nat) cells e,
      out !! r = Some cells → cells !! k = Some e →
      ∃ row cell row_elem cell_elem,
        table !! r = Some row ∧
        py_getitem row (rc_col e) = Done cell ∧
        children table_elem !! r = Some row_elem ∧
        tag row_elem = "row"%string ∧
        children row_elem !! k = Some cell_elem ∧
        tag cell_elem = "cell"%string ∧
        attrib cell_elem =
          (if decide (rc_rowspan e > 1)
           then [("rowspan"%string, pretty (rc_rowspan e))] else []) ++
          (if decide (rc_colspan e > 1)
           then [("colspan"%string, pretty (rc_colspan e))] else []) ∧
        text cell_elem = Some (String.concat newline (paragraphs cell)) ∧
        Forall2 (λ nested child,
                   tag child = "table"%string ∧
                   process_table (pred fuel) (mkElement "cell" [] None []) nested
                     = Done (mkElement "cell" [] None [child]))
                (tables cell) (children cell_elem).
Proof.
  intros (out & Hres & ->)%process_table_Done.
  exists out, (table_el out). split; [done|]. split; [done|]. split; [done|].
  intros r k cells e Hcells He.
  destruct (resolve_table_row _ _ _ _ _ Hres Hcells)
    as (fuel' & n_cols & row & P & P' & -> & Hn & Hrow & Hs & _).
  apply scan_trace_emitted_from in Hs. rewrite Forall_forall in Hs.
  destruct (Hs e) as (_ & cell & Hcell & _ & _ & Htext & Hnested).
  { by eapply list_elem_of_lookup_2. }
  exists row, cell, (row_el cells), (cell_el e).
  split; [done|]. split; [done|]. split.
  { simpl. change (map row_el out) with (row_el <$> out).
    by rewrite list_lookup_fmap, Hcells. }
  split; [done|]. split.
  { simpl. change (map cell_el cells) with (cell_el <$> cells).
    by rewrite list_lookup_fmap, He. }
  rewrite cell_el_unfold. cbn [tag attrib text children].
  split; [done|]. split; [done|].
  split; [by rewrite Htext, py_join_concat|].
  apply process_tables_Forall2 in Hnested. cbn [pred].
  induction Hnested as [|nested res ts results Hres1 _ IH]; [constructor|].
  cbn [map]. constructor; [|done].
  split; [done|]. unfold process_table. by rewrite Hres1.
Qed.

Lemma cell_element_shape_witness :
  ∃ cell_elem,
    process_table 6 document_root two_paragraph_table
      = Done (mkElement "document" [] None
                [mkElement "table" [] None
                   [mkElement "row" [] None [cell_elem]]]) ∧
    tag cell_elem = "cell"%string ∧
    attrib cell_elem = [("colspan", "2")]%string ∧
    text cell_elem = Some ("first" +:+ newline +:+ "second")%string ∧
    Forall2 (λ nested child,
               tag child = "table"%string ∧
               process_table 5 (mkElement "cell" [] None []) nested
                 = Done (mkElement "cell" [] None [child]))
            [received_wide_table] (children cell_elem).
Proof.
  destruct (process_table 6 document_root two_paragraph_table) as [el| |] eqn:Hel;
    [|by vm_compute in Hel..].
  destruct (cell_element_shape 6 document_root two_paragraph_table el Hel)
    as (out & table_elem & Hres & Heq & Htag & Hcells).
  vm_compute in Hres. injection Hres as <-.
  destruct (Hcells 0%nat 0%nat _ _ eq_refl eq_refl)
    as (row & cell & row_elem & cell_elem & Hrow & Hcell & Hr & Htr & Hk &
        Htc & Hattr & Htext & Hnested).
  injection Hrow as <-. vm_compute in Hcell. injection Hcell as <-.
  exists cell_elem.
  vm_compute in Hel. injection Hel as <-.
  injection Heq as <-. simpl in Hr. injection Hr as <-.
  simpl in Hk. injection Hk as <-.
  split; [reflexivity|]. split; [reflexivity|]. split; [reflexivity|].
  split; [reflexivity|]. exact Hnested.
Defined.

(** * Further properties of [process_table] *)

Lemma continuation_run_le (below : list Row) (c : Z) :
  continuation_run below c ≤ Z.of_nat (length below).
Proof.
  induction below as [|row below IH]; simpl; [lia|].
  destruct (has_continuation row c); lia.
Qed.

(** X1. The rowspan of an emitted cell is 1 unless the source cell
    restarts a vertical merge; it is never below 1, and the rectangle of
    the cell never reaches below the last row of the table. *)
Theorem rowspan_within_table fuel (table : Table) out (r : nat) cells e :
  resolve_table fuel table = Done out →
  out !! r = Some cells →
  e ∈ cells →
  1 ≤ rc_rowspan e ∧
  rc_row e + rc_rowspan e ≤ Z.of_nat (length table) ∧
  ∃ row cell,
    table !! r = Some row ∧ py_getitem row (rc_col e) = Done cell ∧
    (is_restart cell = false → rc_rowspan e = 1).
Proof.
  intros Hres Hcells He.
  destruct (resolve_table_row _ _ _ _ _ Hres Hcells)
    as (fuel' & n_cols & row & P & P' & -> & Hn & Hrow & Hs & _).
  apply scan_trace_emitted_from in Hs. rewrite Forall_forall in Hs.
  destruct (Hs e He) as (Hr & cell & Hcell & _ & Hrs & _).
  rewrite rowspan_of_spec in Hrs by lia. injection Hrs as Hrs.
  pose proof (lookup_lt_Some _ _ _ Hrow) as Hlt.
  pose proof (continuation_run_nonneg (drop (S (Z.to_nat (Z.of_nat r))) table)
                (rc_col e)) as Hge.
  pose proof (continuation_run_le (drop (S (Z.to_nat (Z.of_nat r))) table)
                (rc_col e)) as Hle.
  rewrite length_drop in Hle.
  split; [destruct (is_restart cell); lia|].
  split; [destruct (is_restart cell); lia|].
  exists row, cell. split; [done|]. split; [done|].
  intros Hno. rewrite Hno in Hrs. lia.
Qed.

Lemma rowspan_within_table_witness :
  1 ≤ 3 ∧ 0 + 3 ≤ Z.of_nat (length column_table) ∧
  ∃ row cell,
    column_table !! 0%nat = Some row ∧ py_getitem row 0 = Done cell ∧
    (is_restart cell = false → 3 = 1).
Proof.
  apply (rowspan_within_table 5 column_table
           [ [mkResolvedCell 0 0 3 1 "top" []]; []; [] ] 0
           [mkResolvedCell 0 0 3 1 "top" []]
           (mkResolvedCell 0 0 3 1 "top" [])).
  - vm_compute. reflexivity.
  - reflexivity.
  - apply elem_of_cons. by left.
Defined.

(** X2. With span counts of at least 1, the cells emitted for a row sit
    at coordinates of that row, from left to right, each at or after the
    end of the one before: no source cell is emitted twice, and a row
    yields at most as many cells as it has. *)
Theorem cells_emitted_once fuel (table : Table) out (r : nat) cells :
  Forall (Forall (λ x, 1 ≤ colspan_of x)) table →
  resolve_table fuel table = Done out →
  out !! r = Some cells →
  ∃ row,
    table !! r = Some row ∧
    (∀ k e, cells !! k = Some e →
       0 ≤ rc_col e < Z.of_nat (length row) ∧
       ∀ k' e', cells !! k' = Some e' → (k < k')%nat →
                rc_col e + rc_colspan e ≤ rc_col e' ∧ rc_col e < rc_col e') ∧
    (length cells ≤ length row)%nat.
Proof.
  intros Hspan Hres Hcells.
  destruct (resolve_table_row _ _ _ _ _ Hres Hcells)
    as (fuel' & n_cols & row & P & P' & -> & Hn & Hrow & Hs & _).
  assert (∀ x, x ∈ row → 1 ≤ colspan_of x) as Hrowspan.
  { rewrite Forall_forall in Hspan.
    assert (row ∈ table) as Hin by (by eapply list_elem_of_lookup_2).
    specialize (Hspan row Hin). by rewrite Forall_forall in Hspan. }
  pose proof (scan_trace_ordered _ _ _ _ _ _ _ _ _ Hrowspan (Z.le_refl 0) Hs)
    as Hord.
  assert (∀ k e, cells !! k = Some e → Z.of_nat k ≤ rc_col e) as Hidx.
  { induction k as [|k IH]; intros e Hk.
    - destruct (Hord _ _ Hk) as (? & _). lia.
    - destruct (lookup_lt_is_Some_2 cells k) as [e0 He0].
      { apply lookup_lt_Some in Hk. lia. }
      destruct (Hord _ _ He0) as (_ & Hcs & Hlater).
      specialize (IH _ He0). specialize (Hlater _ _ Hk ltac:(lia)). lia. }
  exists row. split; [done|]. split.
  - intros k e Hk. destruct (Hord _ _ Hk) as (Hrange & Hcs & Hlater).
    split; [lia|]. intros k' e' Hk' Hlt.
    specialize (Hlater _ _ Hk' Hlt). lia.
  - destruct cells as [|e0 cells0] eqn:Hc; [simpl; lia|]. rewrite <- Hc in *.
    destruct (lookup_lt_is_Some_2 cells (length cells - 1)) as [e He].
    { rewrite Hc. simpl. lia. }
    specialize (Hidx _ _ He). destruct (Hord _ _ He) as (? & _).
    assert (0 < length cells)%nat by (rewrite Hc; simpl; lia). lia.
Qed.

Lemma cells_emitted_once_witness :
  ∃ row,
    block_table !! 0%nat = Some row ∧
    (∀ k e, [mkResolvedCell 0 0 2 2 "M" []; mkResolvedCell 0 2 1 1 "a" []] !! k
              = Some e →
       0 ≤ rc_col e < Z.of_nat (length row) ∧
       ∀ k' e', [mkResolvedCell 0 0 2 2 "M" []; mkResolvedCell 0 2 1 1 "a" []]
                  !! k' = Some e' → (k < k')%nat →
                rc_col e + rc_colspan e ≤ rc_col e' ∧ rc_col e < rc_col e') ∧
    (length [mkResolvedCell 0 0 2 2 "M" []; mkResolvedCell 0 2 1 1 "a" []]
     ≤ length row)%nat.
Proof.
  apply (cells_emitted_once 5 block_table
           [ [mkResolvedCell 0 0 2 2 "M" []; mkResolvedCell 0 2 1 1 "a" []];
             [mkResolvedCell 1 2 1 1 "b" []] ] 0).
  - repeat constructor; vm_compute; discriminate.
  - vm_compute. reflexivity.
  - reflexivity.
Defined.

(** X4. The scan of a row only adds to the processed set, and what it
    adds is exactly the rectangles of the cells it emits; the cells
    emitted before are kept in front of the new ones. *)
Theorem scan_row_processed (table : Table) n_cols
    (process_nested : Table → outcome ResolvedTable)
    fuel r row c P acc cells P' :
  scan_row table n_cols process_nested fuel r row c P acc = Done (cells, P') →
  ∃ new,
    cells = acc ++ new ∧
    P ⊆ P' ∧
    ∀ i j, (i, j) ∈ P' ↔ (i, j) ∈ P ∨ ∃ e, e ∈ new ∧ covers e i j.
Proof.
  intros (new & -> & Ht)%scan_row_trace.
  pose proof (scan_trace_processed _ _ _ _ _ _ _ _ _ Ht) as HP.
  exists new. split; [done|]. split; [|done].
  intros [i j] Hin. apply HP. by left.
Qed.

Lemma scan_row_processed_witness :
  ∃ new,
    [mkResolvedCell 0 0 1 2 "A" []] = [] ++ new ∧
    ∅ ⊆ mark_span 0 0 1 2 ∅ ∧
    ∀ i j, (i, j) ∈ mark_span 0 0 1 2 ∅ ↔
           (i, j) ∈ (∅ : gset (Z * Z)) ∨ ∃ e, e ∈ new ∧ covers e i j.
Proof.
  apply (scan_row_processed wide_table 2 (resolve_table 3) 4 0
           [span_cell 2 "A"] 0 ∅ []).
  reflexivity.
Defined.

Section Anchors.
Context (table : Table) (n_cols : Z).
Context (process_nested : Table → outcome ResolvedTable).
Hypothesis Hspan : ∀ row x, row ∈ table → x ∈ row → 1 ≤ colspan_of x.
Hypothesis Hcols : ∀ row, row ∈ table → Z.of_nat (length row) ≤ n_cols.

Local Abbreviation exclusive E :=
  (∀ (k k' : nat) (e e' : ResolvedCell),
     E !! k = Some e → E !! k' = Some e' →
     covers e' (rc_row e) (rc_col e) → k' = k).

Lemma anchors_row r row P E cells P' :
  0 ≤ r → table !! Z.to_nat r = Some row →
  grid_inv table r P E →
  exclusive E →
  scan_trace table n_cols process_nested r row 0 P cells P' →
  exclusive (E ++ cells).
Proof.
  intros Hr Hrow [HP HE _ _] Hex Ht.
  assert (row ∈ table) as Hin by (by eapply list_elem_of_lookup_2).
  pose proof (scan_trace_emitted_from _ _ _ _ _ _ _ _ _ Ht) as Hfrom.
  pose proof (scan_trace_fresh _ _ _ _ _ _ _ _ _ Ht) as Hfresh.
  pose proof (scan_trace_ordered _ _ _ r row 0 P cells P'
                (λ x, Hspan row x Hin) (Z.le_refl 0) Ht) as Hord.
  rewrite Forall_forall in Hfrom.
  intros k k' e e' Hk Hk' [Hi Hj].
  apply lookup_app_Some in Hk as [Hk|[Hl Hk]];
    apply lookup_app_Some in Hk' as [Hk'|[Hl' Hk']].
  - by apply (Hex k k' e e').
  - apply list_elem_of_lookup_2 in Hk, Hk'.
    destruct (HE e Hk) as (? & _). destruct (Hfrom e' Hk') as (? & _). lia.
  - apply list_elem_of_lookup_2 in Hk, Hk'.
    destruct (Hfrom e Hk) as (Hre & _).
    destruct (Hfresh e Hk). apply HP. exists e'. split; [done|].
    rewrite <- Hre. by split.
  - destruct (Hord _ _ Hk) as (_ & Hcs & Hlater).
    destruct (Hord _ _ Hk') as (_ & Hcs' & Hlater').
    destruct (Nat.lt_trichotomy (k - length E) (k' - length E))
      as [Hlt|[Heq|Hlt]].
    + specialize (Hlater _ _ Hk' Hlt). lia.
    + lia.
    + specialize (Hlater' _ _ Hk Hlt). lia.
Qed.

Lemma anchors_rows r rows P E out P'' :
  0 ≤ r →
  (∀ k row, rows !! k = Some row → table !! (Z.to_nat r + k)%nat = Some row) →
  grid_inv table r P E →
  exclusive E →
  rows_trace table n_cols process_nested r rows P out P'' →
  exclusive (E ++ concat out).
Proof.
  intros Hr Hrows Hinv Hex Ht. revert E Hr Hrows Hinv Hex.
  induction Ht as [r P|r row rows P cells P' out P'' Hs Ht IH];
    intros E Hr Hrows Hinv Hex; simpl.
  - by rewrite app_nil_r.
  - assert (table !! Z.to_nat r = Some row) as Hrow.
    { specialize (Hrows 0%nat row eq_refl). by rewrite Nat.add_0_r in Hrows. }
    rewrite app_assoc. apply IH; [lia| | |].
    + intros k row' Hk. specialize (Hrows (S k) row' Hk).
      rewrite <- Hrows. f_equal. lia.
    + by eapply grid_inv_row.
    + by eapply anchors_row.
Qed.
End Anchors.

(** X5. With span counts of at least 1, the coordinate a cell is emitted
    at belongs to that cell alone: no other emitted cell's rectangle
    contains it, whatever the merge flags of the table. *)
Theorem emitted_coordinate_is_exclusive fuel (table : Table) out :
  Forall (Forall (λ x, 1 ≤ colspan_of x)) table →
  resolve_table fuel table = Done out →
  ∀ (k k' : nat) e e',
    concat out !! k = Some e → concat out !! k' = Some e' →
    covers e' (rc_row e) (rc_col e) → k' = k.
Proof.
  intros Hspan (fuel' & n_cols & P'' & -> & Hn & Ht)%resolve_table_trace.
  assert (∀ row x, row ∈ table → x ∈ row → 1 ≤ colspan_of x) as Hspan'.
  { intros row x Hrow Hx. rewrite Forall_forall in Hspan.
    specialize (Hspan row Hrow). rewrite Forall_forall in Hspan. auto. }
  assert (∀ row, row ∈ table → Z.of_nat (length row) ≤ n_cols) as Hcols.
  { intros row Hrow. by eapply n_cols_of_ge. }
  change (concat out) with ([] ++ concat out).
  apply (anchors_rows table n_cols (resolve_table fuel') Hspan' Hcols
           0 table ∅ [] out P''); try done.
  apply grid_inv_init.
Qed.

Lemma emitted_coordinate_is_exclusive_witness :
  resolve_table 5 overlap_table
    = Done [ [mkResolvedCell 0 0 1 1 "A" []; mkResolvedCell 0 1 2 1 "B" []];
             [mkResolvedCell 1 0 1 2 "C" []] ] ∧
  ∀ (k k' : nat) e e',
    [mkResolvedCell 0 0 1 1 "A" []; mkResolvedCell 0 1 2 1 "B" [];
     mkResolvedCell 1 0 1 2 "C" []] !! k = Some e →
    [mkResolvedCell 0 0 1 1 "A" []; mkResolvedCell 0 1 2 1 "B" [];
     mkResolvedCell 1 0 1 2 "C" []] !! k' = Some e' →
    covers e' (rc_row e) (rc_col e) → k' = k.
Proof.
  split; [vm_compute; reflexivity|].
  apply (emitted_coordinate_is_exclusive 5 overlap_table
           [ [mkResolvedCell 0 0 1 1 "A" []; mkResolvedCell 0 1 2 1 "B" []];
             [mkResolvedCell 1 0 1 2 "C" []] ]).
  - repeat constructor; vm_compute; discriminate.
  - vm_compute. reflexivity.
Defined.

(** * The document loop *)

Lemma process_blocks_app fuel doc pre post root :
  process_blocks fuel doc (pre ++ post) root
  = (root1 <- process_blocks fuel doc pre root ;;
     process_blocks fuel doc post root1).
Proof.
  revert root. induction pre as [|block pre IH]; intros root; simpl; [done|].
  destruct (py_endswith (b_tag block) "p").
  { destruct (find_paragraph doc block); apply IH. }
  destruct (py_endswith (b_tag block) "tbl"); [|apply IH].
  destruct (find_table doc block) as [table|]; [|apply IH].
  destruct (process_table fuel root (t_rows table)); simpl; [apply IH|done..].
Qed.

(** X6. The body loop only appends to the root element: the tag,
    attributes, text and earlier children of the root stay, each block
    adds at most one child, and every child added is a [heading], [bold]
    or [paragraph] element with the text of a paragraph of the document,
    or a [table] element. *)
Theorem process_blocks_appends fuel doc blocks root root' :
  process_blocks fuel doc blocks root = Done root' →
  tag root' = tag root ∧ attrib root' = attrib root ∧ text root' = text root ∧
  ∃ added,
    children root' = children root ++ added ∧
    (length added ≤ length blocks)%nat ∧
    Forall (λ el,
              tag el = "table"%string ∨
              ∃ para, para ∈ doc_paragraphs doc ∧
                      el = paragraph_el para ∧
                      text el = Some (para_text para) ∧
                      (tag el = "heading" ∨ tag el = "bold" ∨
                       tag el = "paragraph")%string) added.
Proof.
  revert root. induction blocks as [|block blocks IH]; intros root; simpl.
  { intros [= <-]. repeat split. exists []. by rewrite app_nil_r. }
  assert (∀ el,
    (tag el = "table"%string ∨
     ∃ para, para ∈ doc_paragraphs doc ∧ el = paragraph_el para ∧
             text el = Some (para_text para) ∧
             (tag el = "heading" ∨ tag el = "bold" ∨ tag el = "paragraph")%string) →
    process_blocks fuel doc blocks (SubElement root el) = Done root' →
    tag root' = tag root ∧ attrib root' = attrib root ∧ text root' = text root ∧
    ∃ added,
      children root' = children root ++ added ∧
      (length added ≤ S (length blocks))%nat ∧
      Forall (λ el,
                tag el = "table"%string ∨
                ∃ para, para ∈ doc_paragraphs doc ∧ el = paragraph_el para ∧
                        text el = Some (para_text para) ∧
                        (tag el = "heading" ∨ tag el = "bold" ∨
                         tag el = "paragraph")%string) added) as Hadd.
  { intros el Hel (Ht & Ha & Hx & added & Hch & Hlen & Hall)%IH.
    simpl in *. repeat split; try done.
    exists (el :: added). rewrite Hch, <- app_assoc. simpl.
    split; [done|]. split; [lia|]. by constructor. }
  assert (process_blocks fuel doc blocks root = Done root' →
    tag root' = tag root ∧ attrib root' = attrib root ∧ text root' = text root ∧
    ∃ added,
      children root' = children root ++ added ∧
      (length added ≤ S (length blocks))%nat ∧
      Forall (λ el,
                tag el = "table"%string ∨
                ∃ para, para ∈ doc_paragraphs doc ∧ el = paragraph_el para ∧
                        text el = Some (para_text para) ∧
                        (tag el = "heading" ∨ tag el = "bold" ∨
                         tag el = "paragraph")%string) added) as Hskip.
  { intros (Ht & Ha & Hx & added & Hch & Hlen & Hall)%IH.
    repeat split; try done. exists added. split; [done|]. split; [lia|done]. }
  destruct (py_endswith (b_tag block) "p").
  { destruct (find_paragraph doc block) as [para|] eqn:Hfind; [|done].
    apply Hadd. right. exists para.
    apply find_some in Hfind as [Hin _]. apply list_elem_of_In in Hin.
    split; [done|]. split; [done|]. unfold paragraph_el.
    destruct (py_startswith _ _); [|destruct (is_bold para)]; simpl; auto. }
  destruct (py_endswith (b_tag block) "tbl"); [|done].
  destruct (find_table doc block) as [table|]; [|done].
  unfold process_table.
  destruct (resolve_table fuel (t_rows table)) as [out| |]; simpl; [|done..].
  apply Hadd. by left.
Qed.

Lemma process_blocks_appends_witness :
  ∃ added,
    [mkElement "heading" [("level", "2")]%string (Some "Title"%string) [];
     mkElement "bold" [] (Some " Bold one "%string) [];
     table_el [ [mkResolvedCell 0 0 1 2 "A" []];
                [mkResolvedCell 1 0 1 1 "b" []; mkResolvedCell 1 1 1 1 "c" []] ];
     mkElement "paragraph" [] (Some "plain"%string) []]
      = children document_root ++ added ∧
    (length added ≤ length (body sample_document))%nat.
Proof.
  destruct (process_blocks_appends 5 sample_document (body sample_document)
              document_root
              (mkElement "document" [] None
                 [mkElement "heading" [("level", "2")]%string
                    (Some "Title"%string) [];
                  mkElement "bold" [] (Some " Bold one "%string) [];
                  table_el [ [mkResolvedCell 0 0 1 2 "A" []];
                             [mkResolvedCell 1 0 1 1 "b" [];
                              mkResolvedCell 1 1 1 1 "c" []] ];
                  mkElement "paragraph" [] (Some "plain"%string) []]))
    as (_ & _ & _ & added & Hch & Hlen & _).
  - vm_compute. reflexivity.
  - exists added. split; [exact Hch|exact Hlen].
Defined.

Lemma py_endswith_cons (a : Ascii.ascii) (s p : string) :
  py_endswith (String a s) p = String.eqb (String a s) p || py_endswith s p.
Proof. reflexivity. Qed.

Lemma py_endswith_tbl_not_p (s : string) :
  py_endswith s "tbl" = true → py_endswith s "p" = false.
Proof.
  induction s as [|a s IH]; [done|]. rewrite !py_endswith_cons.
  intros [Heq|Hs]%orb_prop.
  - apply String.eqb_eq in Heq. injection Heq as -> ->. reflexivity.
  - rewrite (IH Hs), orb_false_r. apply String.eqb_neq.
    intros [= -> ->]. done.
Qed.

(** X7. A table without rows stops the conversion of its document: when
    the blocks before it go through, the body loop raises [ValueError]
    at the table, whatever follows it, and [docx_to_custom_xml] writes
    nothing. *)
Theorem empty_table_aborts_document fuel fs doc docx_path xml_output_path
    written pre block post table root1 :
  open_docx fs docx_path = Some doc →
  body doc = pre ++ block :: post →
  py_endswith (b_tag block) "tbl" = true →
  find_table doc block = Some table →
  t_rows table = [] →
  process_blocks (S fuel) doc pre document_root = Done root1 →
  process_blocks (S fuel) doc (body doc) document_root = Raise ValueError ∧
  docx_to_custom_xml (S fuel) fs docx_path xml_output_path written
    = Raise ValueError.
Proof.
  intros Hopen Hbody Htag Hfind Hrows Hpre.
  assert (process_blocks (S fuel) doc (body doc) document_root
          = Raise ValueError) as Hraise.
  { rewrite Hbody, process_blocks_app, Hpre. simpl.
    rewrite (py_endswith_tbl_not_p _ Htag), Htag, Hfind, Hrows. reflexivity. }
  split; [done|].
  unfold docx_to_custom_xml. by rewrite Hopen, Hraise.
Qed.

Lemma empty_table_aborts_document_witness :
  process_blocks 5 broken_document (body broken_document) document_root
    = Raise ValueError ∧
  docx_to_custom_xml 5 sample_files "/in/a.docx" "/out/a.xml" ∅
    = Raise ValueError.
Proof.
  apply (empty_table_aborts_document 4 sample_files broken_document
           "/in/a.docx" "/out/a.xml" ∅ [mkBlock 1 "{w}p"] (mkBlock 5 "{w}tbl")
           [mkBlock 3 "{w}p"] (mkDocTable 5 [])
           (SubElement document_root (paragraph_el title_paragraph)));
    reflexivity.
Defined.

(** * The folder loop *)

Lemma process_all_docx_app fuel fs input_folder output_folder l1 l2 written :
  process_all_docx fuel fs input_folder output_folder (l1 ++ l2) written
  = match process_all_docx fuel fs input_folder output_folder l1 written with
    | (written1, Done _) =>
        process_all_docx fuel fs input_folder output_folder l2 written1
    | stopped => stopped
    end.
Proof.
  revert written. induction l1 as [|f l1 IH]; intros written; simpl; [done|].
  destruct (py_endswith f ".docx"); [|apply IH].
  destruct (docx_to_custom_xml _ _ _ _ _); [apply IH|done..].
Qed.

(** X8. An exception that leaves the conversion of one document ends
    the whole folder loop: the files of the names listed before it are
    written, nothing is written for it or for any name listed after it. *)
Theorem raising_document_stops_batch fuel fs input_folder output_folder
    before filename after written0 written1 e :
  process_all_docx fuel fs input_folder output_folder before written0
    = (written1, Done tt) →
  py_endswith filename ".docx" = true →
  docx_to_custom_xml fuel fs (path_join input_folder filename)
    (path_join output_folder (splitext_root filename +:+ ".xml")) written1
    = Raise e →
  process_all_docx fuel fs input_folder output_folder
    (before ++ filename :: after) written0
  = (written1, Raise e).
Proof.
  intros Hbefore Hext Hraise.
  rewrite process_all_docx_app, Hbefore. simpl.
  by rewrite Hext, Hraise.
Qed.

Lemma raising_document_stops_batch_witness :
  process_all_docx 5 sample_files "/in" "/out"
    (["notes.txt"; "a.docx"; "b.docx"])%string ∅
  = (∅, Raise ValueError).
Proof.
  apply (raising_document_stops_batch 5 sample_files "/in" "/out"
           ["notes.txt"%string] "a.docx" ["b.docx"%string] ∅ ∅ ValueError);
    reflexivity.
Defined.

(** X9. A name that does not end in [.docx], a document that does not
    open, and a document whose tree cannot be written leave the XML files
    written so far as they are and do not stop the loop: the XML files
    written and the way the loop ends are those of the listing without
    the name. (What the logger and [print] put out for such a name is no
    part of [written].) *)
Theorem skipped_file_leaves_no_trace fuel fs input_folder output_folder
    before filename after written0 :
  py_endswith filename ".docx" = false ∨
  open_docx fs (path_join input_folder filename) = None ∨
  (∃ doc root,
     open_docx fs (path_join input_folder filename) = Some doc ∧
     process_blocks fuel doc (body doc) document_root = Done root ∧
     can_write fs
       (path_join output_folder (splitext_root filename +:+ ".xml")) = false) →
  process_all_docx fuel fs input_folder output_folder
    (before ++ filename :: after) written0
  = process_all_docx fuel fs input_folder output_folder
      (before ++ after) written0.
Proof.
  intros Hskip. rewrite !process_all_docx_app.
  destruct (process_all_docx fuel fs input_folder output_folder before written0)
    as [written1 [[]| |]]; try done.
  simpl. destruct Hskip as [Hext|[Hopen|(doc & root & Hopen & Hroot & Hw)]].
  - by rewrite Hext.
  - destruct (py_endswith filename ".docx"); [|done].
    unfold docx_to_custom_xml. by rewrite Hopen.
  - destruct (py_endswith filename ".docx"); [|done].
    unfold docx_to_custom_xml. rewrite Hopen, Hroot. simpl. by rewrite Hw.
Qed.

Lemma skipped_file_leaves_no_trace_witness :
  process_all_docx 5 sample_files "/in" "/out"
    (["b.docx"; "c.docx"; "b.docx"])%string ∅
  = process_all_docx 5 sample_files "/in" "/out"
      (["b.docx"; "b.docx"])%string ∅.
Proof.
  apply (skipped_file_leaves_no_trace 5 sample_files "/in" "/out"
           ["b.docx"%string] "c.docx" ["b.docx"%string] ∅).
  right. left. reflexivity.
Defined.

(** X10. The folder loop writes an XML tree to no path other than the
    output paths of the listed [.docx] names: among the XML files, the
    one at any other path is what it was. (The log file, to which every
    call of the logger appends, is not an XML file and no part of
    [written].) *)
Theorem other_paths_untouched fuel fs input_folder output_folder
    filenames written path :
  (∀ filename, filename ∈ filenames →
     py_endswith filename ".docx" = true →
     path ≠ path_join output_folder (splitext_root filename +:+ ".xml")) →
  (process_all_docx fuel fs input_folder output_folder filenames written).1
    !! path = written !! path.
Proof.
  revert written. induction filenames as [|f filenames IH];
    intros written Hpath; simpl; [done|].
  assert (∀ w, (process_all_docx fuel fs input_folder output_folder filenames
                   w).1 !! path = w !! path) as Hrest.
  { intros w. apply IH. intros f' Hf'. apply Hpath. apply elem_of_cons.
    by right. }
  destruct (py_endswith f ".docx") eqn:Hext; [|apply Hrest].
  assert (path ≠ path_join output_folder (splitext_root f +:+ ".xml")) as Hne.
  { apply Hpath; [apply elem_of_cons; by left|done]. }
  unfold docx_to_custom_xml.
  destruct (open_docx fs (path_join input_folder f)) as [doc|]; [|apply Hrest].
  destruct (process_blocks fuel doc (body doc) document_root) as [root| |];
    simpl; [|done..].
  destruct (can_write fs _); [|apply Hrest].
  rewrite Hrest. by rewrite lookup_insert_ne.
Qed.

Lemma other_paths_untouched_witness :
  (process_all_docx 5 sample_files "/in" "/out" ["b.docx"%string]
     {[ "/out/keep.xml"%string := document_root ]}).1 !! "/out/keep.xml"%string
  = ({[ "/out/keep.xml"%string := document_root ]} : gmap string Element)
      !! "/out/keep.xml"%string.
Proof.
  apply other_paths_untouched.
  intros filename [->|[]%elem_of_nil]%elem_of_cons _.
  vm_compute. discriminate.
Defined.

(** * Names of the files written *)

Lemma rfind_from_app ch s1 s2 i last :
  rfind_from ch (s1 +:+ s2) i last
  = rfind_from ch s2 (i + Z.of_nat (String.length s1)) (rfind_from ch s1 i last).
Proof.
  revert i last. induction s1 as [|a s1 IH]; intros i last; simpl.
  - f_equal. lia.
  - rewrite IH. f_equal. lia.
Qed.

Lemma rfind_from_no_slash s i last :
  no_slash s = true → rfind_from (Ascii.ascii_of_nat 47) s i last = last.
Proof.
  revert i last. induction s as [|a s IH]; intros i last; [done|].
  intros [Ha Hs]%andb_prop. cbn [rfind_from].
  apply negb_true_iff in Ha. rewrite Ha. by apply IH.
Qed.

Lemma substring_prefix_app (s t : string) :
  String.substring 0 (String.length s) (s +:+ t) = s.
Proof.
  induction s as [|a s IH]; simpl.
  - by destruct t.
  - by rewrite IH.
Qed.

Lemma substring_char_at (pre : string) (a : Ascii.ascii) (r : string) :
  String.substring (String.length pre) 1 (pre +:+ String a r) = String a "".
Proof.
  induction pre as [|b pre IH]; simpl; [by destruct r|done].
Qed.

Lemma string_app_assoc_char (pre : string) (a : Ascii.ascii) (r : string) :
  (pre +:+ String a "") +:+ r = pre +:+ String a r.
Proof.
  induction pre as [|b pre IH]; [done|]. exact (f_equal (String b) IH).
Qed.

Lemma string_length_app_char (pre : string) (a : Ascii.ascii) :
  String.length (pre +:+ String a "") = S (String.length pre).
Proof.
  induction pre as [|b pre IH]; [done|]. exact (f_equal S IH).
Qed.

(** The loop of [splitext] over the characters before the last dot. *)
Lemma non_dot_scan (pre s t : string) :
  existsb (λ k, negb (String.eqb (py_slice (pre +:+ s +:+ t) k (k + 1)) "."))
          (seqZ (Z.of_nat (String.length pre)) (Z.of_nat (String.length s)))
  = negb (only_dots s).
Proof.
  revert pre. induction s as [|a s IH]; intros pre; [done|].
  rewrite seqZ_cons by (simpl; lia). cbn [existsb].
  unfold py_slice at 1.
  replace (Z.to_nat (Z.of_nat (String.length pre) + 1
                     - Z.of_nat (String.length pre))) with 1%nat by lia.
  rewrite Nat2Z.id.
  change (String a s +:+ t) with (String a (s +:+ t)).
  rewrite substring_char_at.
  unfold only_dots. cbn [string_forallb]. fold (only_dots s).
  rewrite negb_andb. f_equal.
  - simpl. by destruct (Ascii.eqb a _).
  - rewrite <- (IH (pre +:+ String a "")).
    rewrite string_length_app_char, string_app_assoc_char.
    f_equal. f_equal; simpl String.length; lia.
Qed.

Lemma py_endswith_app (s p : string) : py_endswith (s +:+ p) p = true.
Proof.
  induction s as [|a s IH].
  - change ("" +:+ p) with p. destruct p as [|c p]; [done|].
    by rewrite py_endswith_cons, String.eqb_refl.
  - change (String a s +:+ p) with (String a (s +:+ p)).
    rewrite py_endswith_cons, IH. apply orb_true_r.
Qed.

Lemma rfind_dot_docx i last :
  rfind_from (Ascii.ascii_of_nat 46) ".docx" i last = i.
Proof. reflexivity. Qed.

Lemma rfind_slash_docx i last :
  rfind_from (Ascii.ascii_of_nat 47) ".docx" i last = last.
Proof. reflexivity. Qed.

(** X11. A listed name [stem.docx] without a slash is converted, and its
    tree goes to [stem.xml]; but when the stem is empty or made of dots
    only, [splitext] finds no extension and the tree goes to the whole
    name followed by [.xml], so that [.docx] is written to [.docx.xml]. *)
Theorem xml_name_of_docx (stem : string) :
  no_slash stem = true →
  py_endswith (stem +:+ ".docx") ".docx" = true ∧
  splitext_root (stem +:+ ".docx") +:+ ".xml"
    = if only_dots stem then (stem +:+ ".docx") +:+ ".xml" else stem +:+ ".xml".
Proof.
  intros Hslash. split; [apply py_endswith_app|].
  unfold splitext_root, py_rfind.
  rewrite !rfind_from_app, rfind_dot_docx, rfind_slash_docx.
  rewrite (rfind_from_no_slash stem) by done.
  rewrite decide_True by lia. unfold py_range.
  replace (-1 + 1) with (Z.of_nat (String.length "")) by done.
  replace (0 + Z.of_nat (String.length stem) - Z.of_nat (String.length ""))
    with (Z.of_nat (String.length stem)) by (simpl; lia).
  change (stem +:+ ".docx") with ("" +:+ stem +:+ ".docx") at 1.
  rewrite non_dot_scan.
  destruct (only_dots stem); simpl negb; cbv iota; [done|].
  unfold py_slice.
  replace (Z.to_nat (0 + Z.of_nat (String.length stem) - 0))
    with (String.length stem) by lia.
  change (Z.to_nat 0) with 0%nat. by rewrite substring_prefix_app.
Qed.

Lemma xml_name_of_docx_witness :
  py_endswith "report.v2.docx" ".docx" = true ∧
  splitext_root "report.v2.docx" +:+ ".xml" = "report.v2.xml"%string.
Proof. exact (xml_name_of_docx "report.v2" eq_refl). Defined.

(** The hidden file [.docx]. *)
Example dot_docx_name :
  splitext_root ".docx" +:+ ".xml" = ".docx.xml"%string.
Proof. reflexivity. Qed.

(** * Headings *)

Lemma py_replace_from_skip (old new t s : string) :
  py_replace_from old new (String.length t) (t +:+ s)
  = py_replace_from old new 0 s.
Proof.
  induction t as [|a t IH]; [by destruct s|].
  exact IH.
Qed.

Lemma string_prefix_app (old s : string) : String.prefix old (old +:+ s) = true.
Proof.
  induction old as [|a old IH]; [by destruct s|].
  change (String a old +:+ s) with (String a (old +:+ s)).
  simpl. by destruct (Ascii.ascii_dec a a).
Qed.

(** [replace] takes a leading occurrence first. *)
Lemma py_replace_prefix (old new s : string) :
  old ≠ ""%string →
  py_replace (old +:+ s) old new = new +:+ py_replace s old new.
Proof.
  intros Hne. destruct old as [|a old]; [done|].
  unfold py_replace.
  change (String a old +:+ s) with (String a (old +:+ s)).
  cbn [py_replace_from].
  change (String a (old +:+ s)) with (String a old +:+ s).
  rewrite string_prefix_app. f_equal.
  replace (String.length (String a old) - 1)%nat with (String.length old)
    by (simpl; lia).
  apply py_replace_from_skip.
Qed.

(** [replace] leaves a string without occurrence as it is. *)
Lemma py_replace_absent (old new s : string) :
  occurs old s = false → py_replace s old new = s.
Proof.
  unfold py_replace. induction s as [|a s IH]; [done|].
  cbn [occurs py_replace_from]. intros [Hp Hs]%orb_false_elim.
  rewrite Hp. f_equal. by apply IH.
Qed.

(** X12. A paragraph whose style name starts, in lower case, with
    [heading] becomes a [heading] element with the text of the paragraph,
    bold or not. Its level is what follows [heading ] in the lower-cased
    style name, so [Heading 2] gives level [2]; a style name without
    [heading ] in it, such as [Heading] or [Heading2], gives its whole
    lower-cased name as the level. *)
Theorem heading_level_of_style (para : Paragraph) :
  py_startswith (py_lower (style_name para)) "heading" = true →
  tag (paragraph_el para) = "heading"%string ∧
  text (paragraph_el para) = Some (para_text para) ∧
  children (paragraph_el para) = [] ∧
  (∀ rest,
     py_lower (style_name para) = "heading " +:+ rest →
     occurs "heading " rest = false →
     attrib (paragraph_el para) = [("level"%string, rest)]) ∧
  (occurs "heading " (py_lower (style_name para)) = false →
   attrib (paragraph_el para)
     = [("level"%string, py_lower (style_name para))]).
Proof.
  intros Hstart. unfold paragraph_el. rewrite Hstart. simpl.
  split; [done|]. split; [done|]. split; [done|]. split.
  - intros rest -> Hrest.
    rewrite py_replace_prefix by done. by rewrite py_replace_absent.
  - intros Habsent. by rewrite py_replace_absent.
Qed.

Lemma heading_level_of_style_witness :
  attrib (paragraph_el title_paragraph) = [("level"%string, "2"%string)].
Proof.
  destruct (heading_level_of_style title_paragraph) as (_ & _ & _ & Hlevel & _).
  - reflexivity.
  - apply Hlevel; reflexivity.
Defined.

(** * The shape of the tree of a table *)

Lemma rc_size_unfold (e : ResolvedCell) :
  rc_size e =
    S (sum_list (map (λ t : ResolvedTable,
                        sum_list (map (λ row : ResolvedRow,
                                         sum_list (map rc_size row)) t))
                     (rc_tables e))).
Proof. by destruct e. Qed.

Lemma rc_size_nested (e e' : ResolvedCell) (t : ResolvedTable) row :
  t ∈ rc_tables e → row ∈ t → e' ∈ row → (rc_size e' < rc_size e)%nat.
Proof.
  intros Ht Hrow He'. rewrite (rc_size_unfold e).
  assert (rc_size e' ≤ sum_list (map rc_size row))%nat as H1.
  { apply (sum_list_with_in _ id). apply list_elem_of_fmap. by exists e'. }
  assert (sum_list (map rc_size row)
          ≤ sum_list (map (λ row : ResolvedRow, sum_list (map rc_size row)) t))%nat
    as H2.
  { apply (sum_list_with_in _ id).
    apply (list_elem_of_fmap_2 (λ row : ResolvedRow, sum_list (map rc_size row))).
    done. }
  assert (sum_list (map (λ row : ResolvedRow, sum_list (map rc_size row)) t)
          ≤ sum_list (map (λ t : ResolvedTable,
                             sum_list (map (λ row : ResolvedRow,
                                              sum_list (map rc_size row)) t))
                          (rc_tables e)))%nat as H3.
  { apply (sum_list_with_in _ id).
    apply (list_elem_of_fmap_2
             (λ t : ResolvedTable,
                sum_list (map (λ row : ResolvedRow,
                                 sum_list (map rc_size row)) t))).
    done. }
  unfold id in *. lia.
Qed.

Lemma forallb_map_intro {A B} (f : B → bool) (g : A → B) (l : list A) :
  (∀ x, x ∈ l → f (g x) = true) → forallb f (map g l) = true.
Proof.
  intros H. apply forallb_forall. intros y Hy.
  apply in_map_iff in Hy as (x & <- & Hx). apply H. by apply list_elem_of_In.
Qed.

Lemma span_attrib_names (rowspan colspan : Z) :
  forallb (λ kv : string * string,
             String.eqb kv.1 "rowspan" || String.eqb kv.1 "colspan")
          (span_attrib rowspan colspan) = true.
Proof.
  unfold span_attrib.
  by destruct (decide (rowspan > 1)), (decide (colspan > 1)).
Qed.

Lemma cell_el_shaped (n : nat) (e : ResolvedCell) :
  (rc_size e ≤ n)%nat → shaped "cell" (cell_el e) = true.
Proof.
  revert e. induction n as [|n IH]; intros e Hn.
  { rewrite rc_size_unfold in Hn. lia. }
  rewrite cell_el_unfold. cbn [shaped tag attrib text children].
  rewrite span_attrib_names. simpl.
  apply forallb_map_intro. intros t Ht.
  unfold table_el. cbn [shaped tag attrib text children]. simpl.
  apply forallb_map_intro. intros row Hrow.
  unfold row_el. cbn [shaped tag attrib text children]. simpl.
  apply forallb_map_intro. intros e' He'. apply IH.
  pose proof (rc_size_nested e e' t row Ht Hrow He'). lia.
Qed.

(** X13. Whatever table is resolved, the tree attached to the parent is
    a [table] of [row]s of [cell]s, at every depth of nesting: tables and
    rows carry no text and no attribute, a cell carries its text and no
    attribute other than [rowspan] and [colspan], and the children of a
    cell are tables of the same shape. *)
Theorem table_tree_shape fuel parent_el (table : Table) el :
  process_table fuel parent_el table = Done el →
  ∃ table_elem,
    children el = children parent_el ++ [table_elem] ∧
    shaped "table" table_elem = true.
Proof.
  intros (out & _ & ->)%process_table_Done.
  exists (table_el out). split; [done|].
  unfold table_el. cbn [shaped tag attrib text children]. simpl.
  apply forallb_map_intro. intros row Hrow.
  unfold row_el. cbn [shaped tag attrib text children]. simpl.
  apply forallb_map_intro. intros e He.
  by apply (cell_el_shaped (rc_size e)).
Qed.

Lemma table_tree_shape_witness :
  ∃ table_elem,
    children (SubElement document_root (table_el nesting_resolved))
      = children document_root ++ [table_elem] ∧
    shaped "table" table_elem = true.
Proof.
  apply (table_tree_shape 6 document_root nesting_table).
  vm_compute. reflexivity.
Defined.

(** * Sections and the lines written for them *)

Lemma write_section_unfold fuel (h : list MdSection) (section : nat) :
  write_section (S fuel) h section =
    match h !! section with
    | None => None
    | Some s =>
        (λ lines, sec_head s ++ sec_items s ++ lines) <$>
        write_sections fuel h (sec_children s)
    end.
Proof. reflexivity. Qed.

Lemma write_sections_cons fuel (h : list MdSection) child rest :
  write_sections fuel h (child :: rest) =
    match write_section fuel h child, write_sections fuel h rest with
    | Some lines, Some more => Some (lines ++ more)
    | _, _ => None
    end.
Proof. reflexivity. Qed.

Lemma write_sections_app fuel (h : list MdSection) ids1 ids2 lines1 lines2 :
  write_sections fuel h ids1 = Some lines1 →
  write_sections fuel h ids2 = Some lines2 →
  write_sections fuel h (ids1 ++ ids2) = Some (lines1 ++ lines2).
Proof.
  revert lines1. induction ids1 as [|id ids1 IH]; intros lines1; simpl app.
  - intros [= <-]. done.
  - rewrite !write_sections_cons.
    destruct (write_section fuel h id) as [l|]; [|done].
    destruct (write_sections fuel h ids1) as [m|]; [|done].
    intros [= <-] H2. rewrite (IH m eq_refl H2). by rewrite app_assoc.
Qed.

Lemma agree_refl open (h : list MdSection) : agree open h h.
Proof. split; [lia|done]. Qed.

Lemma agree_trans open1 open2 (h1 h2 h3 : list MdSection) :
  agree open1 h1 h2 → agree open2 h2 h3 →
  (∀ i, (i < length h1)%nat → i ∈ open2 → i ∈ open1) →
  agree open1 h1 h3.
Proof.
  intros [Hl1 H1] [Hl2 H2] Hsub. split; [lia|].
  intros i Hi Hopen. rewrite H2; [by apply H1|lia|].
  intros Hin. apply Hopen. by apply Hsub.
Qed.

Lemma stable_mono (h h1 : list MdSection) open open1 ids lines :
  stable h open ids lines → agree open h h1 →
  (∀ i, (i < length h)%nat → i ∈ open1 → i ∈ open) →
  stable h1 open1 ids lines.
Proof.
  intros [d Hd] Hagree Hsub. exists d. intros h' fuel Hagree' Hfuel.
  apply Hd; [|done]. by eapply agree_trans.
Qed.

Lemma stable_nil_inv (h : list MdSection) open lines :
  stable h open [] lines → lines = [].
Proof.
  intros [d Hd]. specialize (Hd h d (agree_refl open h) (Nat.le_refl d)).
  by injection Hd.
Qed.

Lemma stable_nil (h : list MdSection) open : stable h open [] [].
Proof. exists 0%nat. done. Qed.

Lemma stable_app (h : list MdSection) open ids1 ids2 lines1 lines2 :
  stable h open ids1 lines1 → stable h open ids2 lines2 →
  stable h open (ids1 ++ ids2) (lines1 ++ lines2).
Proof.
  intros [d1 H1] [d2 H2]. exists (max d1 d2). intros h' fuel Hagree Hfuel.
  apply write_sections_app; [apply H1|apply H2]; (done || lia).
Qed.

(** A section that is no longer on the stack, with finished children, is
    finished itself. *)
Lemma stable_section (h : list MdSection) open s sec lines :
  h !! s = Some sec → s ∉ open →
  stable h open (sec_children sec) lines →
  stable h open [s] (sec_head sec ++ sec_items sec ++ lines).
Proof.
  intros Hs Hopen [d Hd]. exists (S d). intros h' fuel [Hlen Hagree] Hfuel.
  destruct fuel as [|fuel]; [lia|].
  rewrite write_sections_cons, write_section_unfold.
  rewrite Hagree; [|by eapply lookup_lt_Some|done].
  rewrite Hs, Hd; [|done|lia]. simpl. by rewrite app_nil_r.
Qed.

(** ** The spine *)

Lemma spine_mono (h h1 : list MdSection) open open1 stack above X :
  spine h open stack above X →
  agree open h h1 →
  (∀ i, (i < length h)%nat → i ∈ open1 → i ∈ open) →
  (∀ s, s ∈ stack → h1 !! s = h !! s) →
  spine h1 open1 stack above X.
Proof.
  induction 1 as [above sec closed lines Hroot Hch Hst
                 |s rest above sec closed lines X0 Hs Hch Hst Hrest IH];
    intros Hagree Hsub Hsame.
  - eapply spine_root; [|done|by eapply stable_mono].
    rewrite Hsame; [done|]. apply elem_of_cons. by left.
  - eapply spine_cons; [|done|by eapply stable_mono|].
    + rewrite Hsame; [done|]. apply elem_of_cons. by left.
    + apply IH; try done. intros s' Hs'. apply Hsame. apply elem_of_cons.
      by right.
Qed.

Lemma spine_root_stored (h : list MdSection) open stack above X :
  spine h open stack above X → is_Some (h !! 0%nat).
Proof. induction 1; eauto. Qed.

Lemma spine_nonempty (h : list MdSection) open stack above X :
  spine h open stack above X → stack ≠ [].
Proof. by destruct 1. Qed.

(** What the sections on the stack write, once the section above them
    writes [T]. *)
Lemma spine_sound (h : list MdSection) open stack above X T :
  spine h open stack above X →
  (∃ d, ∀ fuel, (d ≤ fuel)%nat → write_sections fuel h above = Some T) →
  ∃ D root,
    h !! 0%nat = Some root ∧
    ∀ fuel, (D ≤ fuel)%nat →
            write_sections fuel h (sec_children root) = Some (X ++ T).
Proof.
  intros Hsp. revert T.
  induction Hsp as [above sec closed lines Hroot Hch [dc Hst]
                   |s rest above sec closed lines X0 Hs Hch [dc Hst] Hrest IH];
    intros T [d Habove].
  - exists (max dc d), sec. split; [done|]. intros fuel Hfuel.
    rewrite Hch. apply write_sections_app.
    + apply Hst; [apply agree_refl|lia].
    + apply Habove. lia.
  - destruct (IH (sec_head sec ++ sec_items sec ++ lines ++ T))
      as (D & root & Hroot & HD).
    { exists (S (max dc d)). intros fuel Hfuel.
      destruct fuel as [|fuel]; [lia|].
      rewrite write_sections_cons, write_section_unfold, Hs, Hch.
      rewrite (write_sections_app fuel h closed above lines T).
      - simpl. by rewrite app_nil_r.
      - apply Hst; [apply agree_refl|lia].
      - apply Habove. lia. }
    exists D, root. split; [done|]. intros fuel Hfuel.
    rewrite (HD fuel Hfuel). f_equal. by rewrite <- !app_assoc.
Qed.

(** ** Leaving a section *)

Lemma spine_close (h : list MdSection) open rest s X0 L :
  spine h open rest [s] X0 →
  stable h rest [s] L →
  (∀ i, i ∈ rest → i ∈ open) →
  spine h rest rest [] (X0 ++ L).
Proof.
  intros Hsp HL Hsub.
  assert (Hsub' : ∀ i, (i < length h)%nat → i ∈ rest → i ∈ open) by auto.
  inversion Hsp as [above sec closed lines Hroot Hch Hst
                   |s' rest' above sec closed lines X0' Hs Hch Hst Hrest];
    subst.
  - apply (spine_root h [0%nat] [] sec (closed ++ [s])).
    + done.
    + by rewrite app_nil_r.
    + apply stable_app; [|done].
      apply (stable_mono h h open); [done|apply agree_refl|done].
  - replace ((X0' ++ sec_head sec ++ sec_items sec ++ lines) ++ L)
      with (X0' ++ sec_head sec ++ sec_items sec ++ (lines ++ L))
      by (by rewrite <- !app_assoc).
    apply (spine_cons h (s' :: rest') s' rest' [] sec (closed ++ [s])).
    + done.
    + by rewrite app_nil_r.
    + apply stable_app; [|done].
      apply (stable_mono h h open); [done|apply agree_refl|done].
    + apply (spine_mono h h open); [done|apply agree_refl|done|done].
Qed.

Lemma spine_pop (h : list MdSection) s rest X :
  spine h (s :: rest) (s :: rest) [] X → NoDup (s :: rest) → rest ≠ [] →
  spine h rest rest [] X.
Proof.
  intros Hsp Hnd Hne.
  assert (Hsub : ∀ i, i ∈ rest → i ∈ s :: rest)
    by (intros i Hi; apply elem_of_cons; by right).
  inversion Hsp as [above sec closed lines Hroot Hch Hst
                   |s' rest' above sec closed lines X0 Hs Hch Hst Hrest];
    subst; [done|].
  apply (spine_close h (s :: rest) rest s); [done| |done].
  apply (stable_section h rest s sec lines); [done|by inversion Hnd|].
  rewrite Hch, app_nil_r.
  apply (stable_mono h h (s :: rest)); [done|apply agree_refl|auto].
Qed.

Lemma pop_sections_spine (h : list MdSection) lvl stack X :
  spine h stack stack [] X → NoDup stack →
  spine h (pop_sections h lvl stack) (pop_sections h lvl stack) [] X ∧
  NoDup (pop_sections h lvl stack) ∧
  (∀ i, i ∈ pop_sections h lvl stack → i ∈ stack).
Proof.
  induction stack as [|top rest IH]; intros Hsp Hnd; [done|].
  destruct rest as [|next rest]; [done|].
  cbn [pop_sections].
  destruct (h !! top) as [sec|]; [|done].
  destruct (decide (lvl ≤ level sec)); [|done].
  destruct IH as (Hsp' & Hnd' & Hsub').
  - by apply (spine_pop h top).
  - by inversion Hnd.
  - split_and!; [done|done|].
    intros i Hi. apply elem_of_cons. right. by apply Hsub'.
Qed.

(** ** Entering a section and adding to the current one *)

Lemma add_child_length parent child (h : list MdSection) :
  length (add_child parent child h) = length h.
Proof. apply length_alter. Qed.

Lemma add_content_length section item (h : list MdSection) :
  length (add_content section item h) = length h.
Proof. apply length_alter. Qed.

Lemma add_child_lookup_ne parent child (h : list MdSection) i :
  parent ≠ i → add_child parent child h !! i = h !! i.
Proof. apply list_lookup_alter_ne. Qed.

Lemma add_content_lookup_ne section item (h : list MdSection) i :
  section ≠ i → add_content section item h !! i = h !! i.
Proof. apply list_lookup_alter_ne. Qed.

Lemma add_child_agree (h : list MdSection) stack new :
  hd 0%nat stack ∈ stack →
  agree stack h (add_child (hd 0%nat stack) (length h) (h ++ [new])).
Proof.
  intros Htop. split.
  - rewrite add_child_length, length_app. lia.
  - intros i Hi Hout. rewrite add_child_lookup_ne by (by intros <-).
    by apply lookup_app_l.
Qed.

Lemma add_content_agree (h : list MdSection) stack item :
  hd 0%nat stack ∈ stack →
  agree stack h (add_content (hd 0%nat stack) item h).
Proof.
  intros Htop. split.
  - by rewrite add_content_length.
  - intros i Hi Hout. by rewrite add_content_lookup_ne by (by intros <-).
Qed.

Lemma hd_elem_of (stack : list nat) : stack ≠ [] → hd 0%nat stack ∈ stack.
Proof. destruct stack; [done|]. intros _. apply elem_of_cons. by left. Qed.

Lemma spine_push (h : list MdSection) stack X new :
  spine h stack stack [] X → NoDup stack →
  (∀ s, s ∈ stack → (s < length h)%nat) →
  sec_children new = [] →
  spine (add_child (hd 0%nat stack) (length h) (h ++ [new]))
    (length h :: stack) (length h :: stack) []
    (X ++ sec_head new ++ sec_items new).
Proof.
  intros Hsp Hnd Hbound Hnew.
  set (n := length h). set (h1 := add_child (hd 0%nat stack) n (h ++ [new])).
  assert (Hagree : agree stack h h1)
    by (apply add_child_agree, hd_elem_of; by eapply spine_nonempty).
  assert (Hopen : ∀ i, (i < length h)%nat → i ∈ n :: stack → i ∈ stack).
  { intros i Hi [->|Hin]%elem_of_cons; [unfold n in Hi; lia|done]. }
  assert (Htop : ∀ sec, h !! hd 0%nat stack = Some sec →
            h1 !! hd 0%nat stack =
              Some (mkSection (heading sec) (level sec) (content sec)
                      (sec_children sec ++ [n]))).
  { intros sec Hsec. unfold h1, add_child.
    rewrite list_lookup_alter_eq, lookup_app_l by (by eapply lookup_lt_Some).
    by rewrite Hsec. }
  assert (Hnew1 : h1 !! n = Some new).
  { unfold h1. rewrite add_child_lookup_ne.
    - unfold n. rewrite lookup_app_r by lia. by rewrite Nat.sub_diag.
    - intros Heq. specialize (Hbound (hd 0%nat stack)).
      unfold n in Heq. rewrite Heq in Hbound.
      assert (length h < length h)%nat; [|lia].
      apply Hbound. rewrite <- Heq at 1. apply hd_elem_of.
      by eapply spine_nonempty. }
  replace (X ++ sec_head new ++ sec_items new)
    with (X ++ sec_head new ++ sec_items new ++ [])
    by (by rewrite app_nil_r).
  apply (spine_cons h1 (n :: stack) n stack [] new []);
    [done|by rewrite Hnew|apply stable_nil|].
  inversion Hsp as [above sec closed lines Hroot Hch Hst
                   |s rest above sec closed lines X0 Hs Hch Hst Hrest];
    subst.
  - apply (spine_root h1 _ [n]
             (mkSection (heading sec) (level sec) (content sec)
                (sec_children sec ++ [n])) closed).
    + by apply (Htop sec).
    + cbn [sec_children]. by rewrite Hch, app_nil_r.
    + by apply (stable_mono h h1 [0%nat]).
  - apply (spine_cons h1 _ s rest [n]
             (mkSection (heading sec) (level sec) (content sec)
                (sec_children sec ++ [n])) closed lines X0).
    + by apply (Htop sec).
    + cbn [sec_children]. by rewrite Hch, app_nil_r.
    + by apply (stable_mono h h1 (s :: rest)).
    + apply (spine_mono h h1 (s :: rest)); [done|done|done|].
      intros s' Hs'. unfold h1. cbn [hd].
      rewrite add_child_lookup_ne.
      * apply lookup_app_l, Hbound, elem_of_cons. by right.
      * intros <-. by inversion Hnd.
Qed.

Lemma spine_add_content (h : list MdSection) stack X item :
  spine h stack stack [] X → NoDup stack →
  (∃ sec, h !! hd 0%nat stack = Some sec ∧ sec_children sec = []) →
  spine (add_content (hd 0%nat stack) item h) stack stack []
    (X ++ if decide (stack = [0%nat]) then []
          else [item +:+ newline +:+ newline]).
Proof.
  intros Hsp Hnd (top & Htop & Hleaf).
  set (h1 := add_content (hd 0%nat stack) item h).
  assert (Hagree : agree stack h h1)
    by (apply add_content_agree, hd_elem_of; by eapply spine_nonempty).
  assert (Htop1 : h1 !! hd 0%nat stack =
            Some (mkSection (heading top) (level top) (content top ++ [item])
                    (sec_children top))).
  { unfold h1, add_content. by rewrite list_lookup_alter_eq, Htop. }
  inversion Hsp as [above sec closed lines Hroot Hch Hst
                   |s rest above sec closed lines X0 Hs Hch Hst Hrest];
    subst.
  - rewrite decide_True by done. rewrite app_nil_r.
    cbn [hd] in *. rewrite Hroot in Htop. injection Htop as ->.
    eapply (spine_root h1 _ [] _ closed); [done|done|].
    by apply (stable_mono h h1 [0%nat]).
  - rewrite decide_False
      by (intros [= -> ->]; by apply spine_nonempty in Hrest).
    cbn [hd] in *. rewrite Hs in Htop. injection Htop as ->.
    rewrite Hleaf in Hch. symmetry in Hch.
    apply app_eq_nil in Hch as [-> _].
    apply stable_nil_inv in Hst as ->.
    set (top1 := mkSection (heading top) (level top) (content top ++ [item])
                   (sec_children top)) in *.
    replace ((X0 ++ sec_head top ++ sec_items top ++ []) ++
             [item +:+ newline +:+ newline])
      with (X0 ++ sec_head top1 ++ sec_items top1 ++ []).
    2:{ unfold sec_items, top1. cbn [content]. rewrite fmap_app.
        change (sec_head (mkSection (heading top) (level top)
                            (content top ++ [item]) (sec_children top)))
          with (sec_head top).
        cbn [fmap list_fmap]. by rewrite !app_nil_r, <- !app_assoc. }
    apply (spine_cons h1 _ s rest [] top1 [] [] X0).
    + done.
    + done.
    + apply stable_nil.
    + apply (spine_mono h h1 (s :: rest)); [done|done|done|].
      intros s' Hs'. unfold h1. cbn [hd].
      rewrite add_content_lookup_ne; [done|].
      intros <-. by inversion Hnd.
Qed.

(** ** Stripped texts *)

Lemma py_lstrip_head s a t : py_lstrip s = String a t → py_isspace a = false.
Proof.
  induction s as [|b s IH]; [done|]. cbn [py_lstrip].
  destruct (py_isspace b) eqn:Hb; [done|]. by intros [= <- <-].
Qed.

Lemma py_rstrip_head a t :
  py_isspace a = false → ∃ t', py_rstrip (String a t) = String a t'.
Proof.
  intros Ha. cbn [py_rstrip]. destruct (py_rstrip t); [|by eauto].
  rewrite Ha. by eauto.
Qed.

Lemma py_strip_head s a t : py_strip s = String a t → py_isspace a = false.
Proof.
  unfold py_strip. destruct (py_lstrip s) as [|b u] eqn:Hl; [done|].
  pose proof (py_lstrip_head s b u Hl) as Hb.
  destruct (py_rstrip_head b u Hb) as [t' ->]. by intros [= <- <-].
Qed.

(** A stripped text does not start with a space. *)
Lemma py_strip_no_leading_space s : py_startswith (py_strip s) " " = false.
Proof.
  destruct (py_strip s) as [|a t] eqn:Hs; [done|].
  apply py_strip_head in Hs. unfold py_startswith. cbn [String.prefix].
  destruct (Ascii.ascii_dec _ a) as [<-|]; [done|done].
Qed.

Lemma get_element_text_stripped element :
  py_startswith (get_element_text element) " " = false.
Proof. destruct element. apply py_strip_no_leading_space. Qed.

(** ** The loop of [xml_to_md] *)

Lemma md_inv_initial : md_inv initial_state [].
Proof.
  split; cbn.
  - apply (spine_root _ _ [] (mkSection None 0 [] []) [] []);
      [done|done|apply stable_nil].
  - apply NoDup_singleton.
  - intros s ->%list_elem_of_singleton. lia.
  - by eexists.
  - done.
Qed.

Lemma md_inv_heading (st : MdState) X text lvl :
  md_inv st X →
  md_inv
    (mkState
       (add_child (hd 0%nat (pop_sections (store st) lvl (section_stack st)))
          (length (store st))
          (store st ++ [mkSection (Some text) lvl [] []]))
       (length (store st) :: pop_sections (store st) lvl (section_stack st))
       true)
    (X ++ if py_truthy text
          then [hashes lvl +:+ " " +:+ text +:+ newline +:+ newline] else []).
Proof.
  intros [Hsp Hnd Hbound Htop Hstarted].
  destruct (pop_sections_spine (store st) lvl (section_stack st) X Hsp Hnd)
    as (Hsp' & Hnd' & Hsub).
  set (stack := pop_sections (store st) lvl (section_stack st)) in *.
  set (new := mkSection (Some text) lvl [] []).
  assert (Hbound' : ∀ s, s ∈ stack → (s < length (store st))%nat) by auto.
  assert (Hfresh : length (store st) ∉ stack).
  { intros Hin. apply Hbound' in Hin. lia. }
  split; cbn [store section_stack first_heading_encountered].
  - replace (if py_truthy text
             then [hashes lvl +:+ " " +:+ text +:+ newline +:+ newline]
             else []) with (sec_head new ++ sec_items new)
      by (unfold sec_head, sec_items; cbn; by rewrite app_nil_r).
    by apply spine_push.
  - by apply NoDup_cons.
  - intros s Hs. rewrite add_child_length, length_app. cbn [length].
    apply elem_of_cons in Hs as [->|Hs]; [lia|]. apply Hbound' in Hs. lia.
  - exists new. split; [|done]. cbn [hd].
    rewrite add_child_lookup_ne.
    + rewrite lookup_app_r by lia. by rewrite Nat.sub_diag.
    + intros Heq. apply Hfresh. rewrite <- Heq. apply hd_elem_of.
      by eapply spine_nonempty.
  - split; [done|]. intros [= Hlen Hnil].
    apply spine_nonempty in Hsp'. done.
Qed.

Lemma md_inv_add_content (st : MdState) X item :
  md_inv st X →
  md_inv
    (mkState (add_content (hd 0%nat (section_stack st)) item (store st))
       (section_stack st) (first_heading_encountered st))
    (X ++ if first_heading_encountered st
          then [item +:+ newline +:+ newline] else []).
Proof.
  intros [Hsp Hnd Hbound Htop Hstarted].
  split; cbn [store section_stack first_heading_encountered].
  - replace (if first_heading_encountered st
             then [item +:+ newline +:+ newline] else [])
      with (if decide (section_stack st = [0%nat]) then []
            else [item +:+ newline +:+ newline]).
    + by apply spine_add_content.
    + destruct (decide (section_stack st = [0%nat])) as [Heq|Hne].
      * apply Hstarted in Heq. by rewrite Heq.
      * destruct (first_heading_encountered st); [done|].
        destruct Hne. by apply Hstarted.
  - done.
  - intros s Hs. rewrite add_content_length. by apply Hbound.
  - destruct Htop as (sec & Hsec & Hleaf).
    exists (mkSection (heading sec) (level sec) (content sec ++ [item])
              (sec_children sec)).
    split; [|done]. unfold add_content.
    by rewrite list_lookup_alter_eq, Hsec.
  - done.
Qed.

Section XmlToMdFacts.
Variable classify_heading : string → Z.

Lemma md_step_inv (st : MdState) X element elements :
  md_inv st X →
  ∃ X', md_inv (md_step classify_heading st element) X' ∧
        X ++ lines_in_order classify_heading (first_heading_encountered st)
               (element :: elements) =
        X' ++ lines_in_order classify_heading
                (first_heading_encountered
                   (md_step classify_heading st element)) elements.
Proof.
  intros Hinv. unfold md_step. cbn [lines_in_order].
  destruct (String.eqb (x_tag element) "heading" ||
            String.eqb (x_tag element) "bold").
  - rewrite get_element_text_stripped. cbn [negb].
    rewrite andb_true_r.
    eexists. split.
    + replace (negb (first_heading_encountered st) ||
               first_heading_encountered st) with true
        by (by destruct (first_heading_encountered st)).
      by apply md_inv_heading.
    + cbn [first_heading_encountered].
      replace (negb (first_heading_encountered st) ||
               first_heading_encountered st) with true
        by (by destruct (first_heading_encountered st)).
      rewrite app_assoc. do 2 f_equal.
      by destruct (first_heading_encountered st).
  - destruct (String.eqb (x_tag element) "paragraph").
    + destruct (py_truthy (py_strip (get_element_text element))).
      * eexists. split; [by apply md_inv_add_content|].
        cbn [first_heading_encountered]. rewrite andb_true_r.
        by rewrite app_assoc.
      * exists X. split; [done|]. by rewrite andb_false_r.
    + destruct (String.eqb (x_tag element) "table").
      * eexists. split; [by apply md_inv_add_content|].
        cbn [first_heading_encountered]. by rewrite app_assoc.
      * by exists X.
Qed.

Lemma md_loop_inv elements :
  ∀ (st : MdState) X,
    md_inv st X →
    md_inv (foldl (md_step classify_heading) st elements)
      (X ++ lines_in_order classify_heading (first_heading_encountered st)
              elements).
Proof.
  induction elements as [|element elements IH]; intros st X Hinv.
  - cbn. by rewrite app_nil_r.
  - destruct (md_step_inv st X element elements Hinv) as (X' & Hinv' & ->).
    cbn [foldl]. by apply IH.
Qed.

End XmlToMdFacts.

(** ** How much fuel the writing needs *)

Lemma write_section_mono fuel :
  ∀ (h : list MdSection) section lines,
    write_section fuel h section = Some lines →
    write_section (S fuel) h section = Some lines.
Proof.
  induction fuel as [|fuel IH]; intros h section lines; [done|].
  rewrite (write_section_unfold (S fuel)), (write_section_unfold fuel).
  destruct (h !! section) as [sec|]; [|done].
  assert (Hall : ∀ ids more, write_sections fuel h ids = Some more →
                             write_sections (S fuel) h ids = Some more).
  { induction ids as [|id ids IHids]; intros more; [done|].
    rewrite !write_sections_cons.
    destruct (write_section fuel h id) as [l|] eqn:Hid; [|done].
    destruct (write_sections fuel h ids) as [m|]; [|done].
    intros [= <-]. by rewrite (IH h id l Hid), (IHids m eq_refl). }
  destruct (write_sections fuel h (sec_children sec)) as [more|] eqn:Hmore;
    [|done].
  by rewrite (Hall _ _ Hmore).
Qed.

Lemma write_sections_mono (h : list MdSection) ids more fuel fuel' :
  write_sections fuel h ids = Some more → (fuel ≤ fuel')%nat →
  write_sections fuel' h ids = Some more.
Proof.
  intros Hw Hle. induction Hle as [|fuel' Hle IH]; [done|].
  clear Hw. revert more IH.
  induction ids as [|id ids IHids]; intros more; [done|].
  rewrite !write_sections_cons.
  destruct (write_section fuel' h id) as [l|] eqn:Hid; [|done].
  destruct (write_sections fuel' h ids) as [m|]; [|done].
  intros [= <-].
  by rewrite (write_section_mono fuel' h id l Hid), (IHids m eq_refl).
Qed.

Lemma write_section_defined (h : list MdSection) :
  children_later h →
  ∀ fuel section,
    (section < length h)%nat → (length h - section ≤ fuel)%nat →
    is_Some (write_section fuel h section).
Proof.
  intros Hlater.
  induction fuel as [|fuel IH]; intros section Hin Hfuel; [lia|].
  rewrite write_section_unfold.
  destruct (lookup_lt_is_Some_2 h section Hin) as [sec Hsec].
  rewrite Hsec.
  assert (Hall : ∀ ids, (∀ c, c ∈ ids → c ∈ sec_children sec) →
                        is_Some (write_sections fuel h ids)).
  { induction ids as [|id ids IHids]; intros Hsub; [by eexists|].
    rewrite write_sections_cons.
    destruct (Hlater section sec id Hsec) as [Hlt Hlen].
    { apply Hsub, elem_of_cons. by left. }
    destruct (IH id Hlen) as [l ->]; [lia|].
    destruct IHids as [m ->]; [|by eexists].
    intros c Hc. apply Hsub, elem_of_cons. by right. }
  destruct (Hall (sec_children sec)) as [more ->]; [done|by eexists].
Qed.

Lemma write_sections_defined (h : list MdSection) fuel ids :
  children_later h →
  (∀ c, c ∈ ids → (c < length h)%nat ∧ (length h - c ≤ fuel)%nat) →
  is_Some (write_sections fuel h ids).
Proof.
  intros Hlater.
  induction ids as [|id ids IH]; intros Hids; [by eexists|].
  rewrite write_sections_cons.
  destruct (Hids id) as [Hlt Hfuel]; [apply elem_of_cons; by left|].
  destruct (write_section_defined h Hlater fuel id Hlt Hfuel) as [l ->].
  destruct IH as [m ->]; [|by eexists].
  intros c Hc. apply Hids, elem_of_cons. by right.
Qed.

Lemma children_later_initial : children_later (store initial_state).
Proof.
  intros i sec c Hi Hc. destruct i as [|i]; [|done].
  injection Hi as <-. by apply elem_of_nil in Hc.
Qed.

Lemma children_later_add_content (h : list MdSection) section item :
  children_later h → children_later (add_content section item h).
Proof.
  intros Hlater i sec c Hi Hc. rewrite add_content_length.
  unfold add_content in Hi. rewrite list_lookup_alter in Hi.
  destruct (decide (section = i)) as [->|]; [|by eapply Hlater].
  destruct (h !! i) as [sec0|] eqn:Hsec0; [|done].
  injection Hi as <-. by eapply Hlater.
Qed.

Lemma children_later_add_child (h : list MdSection) parent new :
  children_later h → (parent < length h)%nat → sec_children new = [] →
  children_later (add_child parent (length h) (h ++ [new])).
Proof.
  intros Hlater Hparent Hnew i sec c Hi Hc.
  rewrite add_child_length, length_app. cbn [length].
  unfold add_child in Hi. rewrite list_lookup_alter in Hi.
  destruct (decide (parent = i)) as [->|Hne].
  - rewrite lookup_app_l in Hi by done.
    destruct (h !! i) as [sec0|] eqn:Hsec0; [|done].
    injection Hi as <-. cbn [sec_children] in Hc.
    apply elem_of_app in Hc as [Hc|Hc].
    + destruct (Hlater i sec0 c Hsec0 Hc). lia.
    + apply list_elem_of_singleton in Hc as ->. lia.
  - destruct (decide (i < length h)%nat) as [Hlt|Hge].
    + rewrite lookup_app_l in Hi by done.
      destruct (Hlater i sec c Hi Hc). lia.
    + rewrite lookup_app_r in Hi by lia.
      destruct (i - length h)%nat; [|done].
      injection Hi as <-. rewrite Hnew in Hc. by apply elem_of_nil in Hc.
Qed.

Section XmlToMdFuel.
Variable classify_heading : string → Z.

Lemma md_step_children_later (st : MdState) X element :
  md_inv st X → children_later (store st) →
  children_later (store (md_step classify_heading st element)) ∧
  (length (store (md_step classify_heading st element))
   ≤ S (length (store st)))%nat.
Proof.
  intros Hinv Hlater. unfold md_step.
  destruct (String.eqb (x_tag element) "heading" ||
            String.eqb (x_tag element) "bold").
  - cbn [store]. split.
    + apply children_later_add_child; [done| |done].
      destruct Hinv as [Hsp Hnd Hbound _ _].
      destruct (pop_sections_spine (store st)
                  (if negb (first_heading_encountered st) &&
                      negb (py_startswith (get_element_text element) " ")
                   then 1 else classify_heading (get_element_text element))
                  (section_stack st) X Hsp Hnd)
        as (Hsp' & _ & Hsub).
      apply Hbound, Hsub, hd_elem_of. by eapply spine_nonempty.
    + rewrite add_child_length, length_app. cbn [length]. lia.
  - destruct (String.eqb (x_tag element) "paragraph").
    + destruct (py_truthy (py_strip (get_element_text element))).
      * cbn [store]. split; [by apply children_later_add_content|].
        rewrite add_content_length. lia.
      * split; [done|lia].
    + destruct (String.eqb (x_tag element) "table").
      * cbn [store]. split; [by apply children_later_add_content|].
        rewrite add_content_length. lia.
      * split; [done|lia].
Qed.

Lemma md_loop_children_later elements :
  ∀ (st : MdState) X,
    md_inv st X → children_later (store st) →
    children_later (store (foldl (md_step classify_heading) st elements)) ∧
    (length (store (foldl (md_step classify_heading) st elements))
     ≤ length elements + length (store st))%nat.
Proof.
  induction elements as [|element elements IH]; intros st X Hinv Hlater.
  - split; [done|cbn; lia].
  - destruct (md_step_inv classify_heading st X element [] Hinv)
      as (X' & Hinv' & _).
    destruct (md_step_children_later st X element Hinv Hlater)
      as [Hlater' Hlen].
    destruct (IH _ X' Hinv' Hlater') as [Hlater'' Hlen'].
    cbn [foldl length]. split; [done|lia].
Qed.
End XmlToMdFuel.

(** What [xml_to_md] writes when the loop ends in a state described by
    [X]. *)
Lemma md_lines_of_inv (classify_heading : string → Z)
    (elements : list XElement) (fuel : nat) X :
  md_inv (md_loop classify_heading elements) X →
  (length elements ≤ fuel)%nat →
  md_lines classify_heading fuel elements = Some X.
Proof.
  intros Hinv Hfuel.
  destruct (md_loop_children_later classify_heading elements initial_state []
              md_inv_initial children_later_initial) as [Hlater Hlen].
  cbn [store initial_state length] in Hlen.
  destruct (spine_sound _ _ _ _ _ [] (inv_spine _ _ Hinv))
    as (fuel0 & root & Hroot & Hlines); [by exists 0%nat|].
  specialize (Hlines (max fuel fuel0) (Nat.le_max_r _ _)).
  rewrite app_nil_r in Hlines.
  unfold md_lines, md_loop in *.
  set (st := foldl (md_step classify_heading) initial_state elements) in *.
  rewrite Hroot.
  change (write_sections fuel (store st) (sec_children root) = Some X).
  destruct (write_sections_defined (store st) fuel (sec_children root) Hlater)
    as [lines Hdef].
  { intros c Hc. destruct (Hlater 0%nat root c Hroot Hc). lia. }
  rewrite Hdef. rewrite <- Hlines. symmetry.
  apply (write_sections_mono _ _ _ fuel); [done|lia].
Qed.

Lemma lines_in_order_no_heading (classify_heading : string → Z)
    (elements : list XElement) :
  Forall (λ element, x_tag element ≠ "heading" ∧ x_tag element ≠ "bold")
    elements →
  lines_in_order classify_heading false elements = [].
Proof.
  induction 1 as [|element elements [Hh Hb] _ IH]; [done|].
  cbn [lines_in_order].
  apply String.eqb_neq in Hh, Hb. rewrite Hh, Hb. cbn [orb andb].
  by destruct (String.eqb (x_tag element) "paragraph"),
              (String.eqb (x_tag element) "table").
Qed.

(** X14. The Markdown lines of [xml_to_md] follow the document: for every
    classification of headings, the sections built on the stack and then
    written parent before children give, element by element, the line of
    each [heading] or [bold] element (none if its text is empty), of each
    [paragraph] with text and of each [table], in the order of the
    elements. The first [heading] or [bold] element has level 1 whatever
    its classification, and what comes before it is not written. A depth
    of recursion as large as the number of elements is enough. *)
Theorem md_lines_in_document_order (classify_heading : string → Z)
    (elements : list XElement) (fuel : nat) :
  (length elements ≤ fuel)%nat →
  md_lines classify_heading fuel elements =
    Some (lines_in_order classify_heading false elements).
Proof.
  intros Hfuel. apply md_lines_of_inv; [|done].
  exact (md_loop_inv classify_heading elements initial_state []
           md_inv_initial).
Qed.

Lemma md_lines_in_document_order_witness :
  md_lines sample_classify 12 sample_elements =
    Some (lines_in_order sample_classify false sample_elements).
Proof.
  apply (md_lines_in_document_order sample_classify sample_elements 12).
  vm_compute. lia.
Defined.

(** X15. A document without any [heading] or [bold] element gives no line
    at all: its paragraphs and tables are added to the root section, which
    [xml_to_md] never writes. *)
Theorem headingless_document_writes_nothing (classify_heading : string → Z)
    (elements : list XElement) (fuel : nat) :
  Forall (λ element, x_tag element ≠ "heading" ∧ x_tag element ≠ "bold")
    elements →
  (length elements ≤ fuel)%nat →
  md_lines classify_heading fuel elements = Some [].
Proof.
  intros Hplain Hfuel. apply md_lines_of_inv; [|done].
  rewrite <- (lines_in_order_no_heading classify_heading elements Hplain).
  exact (md_loop_inv classify_heading elements initial_state []
           md_inv_initial).
Qed.

Lemma headingless_document_writes_nothing_witness :
  md_lines sample_classify 3 headingless_elements = Some [].
Proof.
  apply (headingless_document_writes_nothing sample_classify
           headingless_elements 3).
  - repeat constructor; done.
  - vm_compute. lia.
Defined.
